(** * Backend worker of the quill asynchronous logger

    A shallow embedding of [src/quill/src/detail/BackendWorker.cpp]: the
    merge step ([_process_record]), the running loop ([_main_loop]), the
    drain loop ([_exit]), start-up ([run], [_set_cpu_affinity],
    [_set_thread_name]) and shutdown ([stop]).

    Producer threads, client threads and the backend thread are modelled
    by interleaving, at three grains.  In a trace of [Event] each event is
    one atomic action of one thread, and one iteration of the running loop
    or of the drain loop (one call of [_process_record]) is one such
    action: a push lands between two merge steps.  In a trace of
    [RacingEvent] pushes also land while a merge step runs: between the
    examination of one lane and the next, and between the loop and the
    processing of the selected record.  In
    a trace of [CallEvent] several threads are inside [stop] at once, each
    at its own point between the store, the test of [joinable] and the
    [join]. *)

From Stdlib Require Import ZArith Lia.
From stdpp Require Import base relations list sorting strings.

(** ** Data model *)

(** [std::numeric_limits<uint64_t>::max()] and
    [std::numeric_limits<uint16_t>::max()]. *)
Definition UINT64_MAX : Z := (2 ^ 64 - 1)%Z.
Definition UINT16_MAX : Z := (2 ^ 16 - 1)%Z.

(** A log record: [timestamp()] is a [uint64_t]; the payload is opaque to
    the backend worker. *)
Record RecordBase := mkRecord {
  timestamp : Z;
  payload : nat
}.

Definition uint64 (z : Z) : Prop := (0 <= z <= UINT64_MAX)%Z.

(** Modelled from the spec: [ThreadContext] and its [SPSCQueueT] are declared
    in headers that are not part of the sources at hand.  A lane is the
    FIFO sequence of the records that were pushed and not yet removed, head
    first, together with the identifier of the producer thread. *)
Record ThreadContext := mkContext {
  thread_id : string;
  spsc_queue : list RecordBase
}.

(** Modelled from the spec: the peek handle returned by [try_pop].  A valid
    handle refers to the head slot of one lane (its position in the vector
    of thread contexts) and gives access to the record stored there; a
    default-constructed or released handle is invalid. *)
Inductive Handle :=
  | Invalid
  | Valid (lane : nat) (data : RecordBase).

Definition is_valid (h : Handle) : bool :=
  match h with Valid _ _ => true | Invalid => false end.

(** Modelled from the spec: [try_pop] on lane [i] peeks at the head record
    without removing it. *)
Definition try_pop (i : nat) (elem : ThreadContext) : Handle :=
  match spsc_queue elem with
  | [] => Invalid
  | r :: _ => Valid i r
  end.

(** Modelled from the spec: [release] leaves the record in its lane and
    invalidates the handle. *)
Definition release (h : Handle) : Handle := Invalid.

Definition pop_front (c : ThreadContext) : ThreadContext :=
  mkContext (thread_id c) (tail (spsc_queue c)).

Definition push_back (r : RecordBase) (c : ThreadContext) : ThreadContext :=
  mkContext (thread_id c) (spsc_queue c ++ [r]).

(** Modelled from the spec: a handle that goes out of scope while still
    valid commits, that is, removes the head record of its lane; an invalid
    handle does nothing. *)
Definition destroy (h : Handle) (cs : list ThreadContext) : list ThreadContext :=
  match h with
  | Valid i _ => alter pop_front i cs
  | Invalid => cs
  end.

(** Modelled from the spec: move assignment hands the source handle to the
    target.  The target is released just before the only assignment in
    [_process_record], so what is left in the source is an invalid handle
    whichever way the assignment disposes of the target's old value; here
    the two handles are exchanged. *)
Definition move_assign (dst src : Handle) : Handle * Handle := (src, dst).

(** What the handlers receive from [backend_process]: the record that the
    committed handle refers to (and hence the lane whose slot holds it) and
    the [desired_thread_id] pointer, null or the producer's thread id. *)
Record Dispatched := mkDispatched {
  source_lane : nat;
  caller_thread_id : option string;
  record : RecordBase
}.

(** ** The merge step *)

(** The three locals of [_process_record]. *)
Record Scan := mkScan {
  min_rdtsc : Z;
  desired_record_handle : Handle;
  desired_thread_id : option string
}.

Definition scan_init : Scan := mkScan UINT64_MAX Invalid None.

(** One iteration of the [for] loop, on the lane at position [i].  The
    local [observed_record_handle] is destroyed at the end of the
    iteration. *)
Definition scan_lane (st : list ThreadContext * Scan) (i : nat)
  : list ThreadContext * Scan :=
  let '(cs, s) := st in
  match cs !! i with
  | None => st
  | Some elem =>
      let observed_record_handle := try_pop i elem in
      match observed_record_handle with
      | Valid _ r =>
          if (timestamp r <? min_rdtsc s)%Z then
            let released := release (desired_record_handle s) in
            let '(desired, observed) := move_assign released observed_record_handle in
            (destroy observed cs,
             mkScan (timestamp r) desired (Some (thread_id elem)))
          else
            (destroy (release observed_record_handle) cs, s)
      | Invalid => (destroy observed_record_handle cs, s)
      end
  end.

Definition scan (cs : list ThreadContext) : list ThreadContext * Scan :=
  foldl scan_lane (cs, scan_init) (seq 0 (length cs)).

(** [_process_record]: the result, the lanes afterwards and what was handed
    to the handlers.  [desired_record_handle] is destroyed when the
    function returns, after [backend_process]. *)
Definition _process_record (cs : list ThreadContext)
  : bool * list ThreadContext * list Dispatched :=
  let '(cs1, s) := scan cs in
  match desired_record_handle s with
  | Valid i r =>
      (true, destroy (desired_record_handle s) cs1,
       [mkDispatched i (desired_thread_id s) r])
  | Invalid => (false, destroy (desired_record_handle s) cs1, [])
  end.

(** ** Configuration and host environment *)

Record Config := mkConfig {
  backend_thread_sleep_duration : Z;
  backend_thread_cpu_affinity : Z;
  backend_thread_name : string
}.

(** The three branches of the conditional compilation. *)
Inductive Platform := Win32 | Apple | Posix.

(** What the host answers to the calls made at start-up.  The result of
    [thread_policy_set] is part of the host's answer although
    [_set_cpu_affinity] does not look at it. *)
Record Host := mkHost {
  platform : Platform;
  sched_setaffinity_result : Z;
  thread_policy_set_result : Z;
  prctl_result : Z;
  pthread_setname_np_result : Z;
  errno : Z
}.

Inductive Exception :=
  | system_error (code : Z)
  | runtime_error (res : Z).

Definition _set_cpu_affinity (h : Host) (c : Config) : Exception + unit :=
  match platform h with
  | Win32 => inr tt
  | Apple =>
      (* the value that [thread_policy_set] returns is not looked at *)
      let _ := thread_policy_set_result h in
      inr tt
  | Posix =>
      if (sched_setaffinity_result h =? -1)%Z
      then inl (system_error (errno h))
      else inr tt
  end.

Definition _set_thread_name (h : Host) (c : Config) : Exception + unit :=
  match platform h with
  | Win32 => inr tt
  | Apple =>
      if negb (pthread_setname_np_result h =? 0)%Z
      then inl (runtime_error (pthread_setname_np_result h))
      else inr tt
  | Posix =>
      if (prctl_result h =? -1)%Z
      then inl (system_error (errno h))
      else inr tt
  end.

(** The "On Start" part of the worker thread's body. *)
Definition on_start (h : Host) (c : Config) : Exception + unit :=
  match
    (if negb (backend_thread_cpu_affinity c =? UINT16_MAX)%Z
     then _set_cpu_affinity h c else inr tt)
  with
  | inl e => inl e
  | inr _ => _set_thread_name h c
  end.

(** ** The backend worker *)

(** Where the worker thread is in its body.  An exception that leaves the
    body of a [std::thread] is not handed to any other thread (the runtime
    calls [std::terminate]): the thread ends in [Threw] and takes no
    further step. *)
Inductive WorkerPc :=
  | OnStart
  | Running
  | OnExit
  | Finished
  | Threw (e : Exception).

Inductive std_thread :=
  | NotAThread
  | Thread (pc : WorkerPc).

Definition joinable (t : std_thread) : bool :=
  match t with Thread _ => true | NotAThread => false end.

(** The members of the class, together with what surrounds it: the host,
    the records that the handlers have received so far (oldest first) and
    the durations that the worker thread has slept (oldest first). *)
Record BackendWorker := mkWorker {
  host : Host;
  _config : Config;
  _thread_context_collection : list ThreadContext;
  _handler_collection : list Dispatched;
  _is_running : bool;
  _start_init_once_flag : bool;
  _backend_thread_sleep_duration : Z;
  _backend_worker_thread : std_thread;
  slept : list Z
}.

(** The constructor. *)
Definition new_worker (h : Host) (c : Config) (cs : list ThreadContext)
  : BackendWorker :=
  mkWorker h c cs [] false false 0 NotAThread [].

Definition is_running (w : BackendWorker) : bool := _is_running w.

Definition set_thread (t : std_thread) (w : BackendWorker) : BackendWorker :=
  mkWorker (host w) (_config w) (_thread_context_collection w)
    (_handler_collection w) (_is_running w) (_start_init_once_flag w)
    (_backend_thread_sleep_duration w) t (slept w).

Definition set_running (b : bool) (w : BackendWorker) : BackendWorker :=
  mkWorker (host w) (_config w) (_thread_context_collection w)
    (_handler_collection w) b (_start_init_once_flag w)
    (_backend_thread_sleep_duration w) (_backend_worker_thread w) (slept w).

Definition set_contexts (cs : list ThreadContext) (w : BackendWorker)
  : BackendWorker :=
  mkWorker (host w) (_config w) cs
    (_handler_collection w) (_is_running w) (_start_init_once_flag w)
    (_backend_thread_sleep_duration w) (_backend_worker_thread w) (slept w).

(** [std::this_thread::sleep_for]: the duration is recorded. *)
Definition sleep_for (d : Z) (w : BackendWorker) : BackendWorker :=
  mkWorker (host w) (_config w) (_thread_context_collection w)
    (_handler_collection w) (_is_running w) (_start_init_once_flag w)
    (_backend_thread_sleep_duration w) (_backend_worker_thread w)
    (slept w ++ [d]).

(** [_process_record] on the worker's own collections: the snapshot is the
    current thread contexts, the handlers append what they receive. *)
Definition process (w : BackendWorker) : bool * BackendWorker :=
  let '(processed_record, cs, out) :=
    _process_record (_thread_context_collection w) in
  (processed_record,
   mkWorker (host w) (_config w) cs
     (_handler_collection w ++ out) (_is_running w) (_start_init_once_flag w)
     (_backend_thread_sleep_duration w) (_backend_worker_thread w) (slept w)).

(** [_main_loop]: one merge step, and the sleep when it processed
    nothing. *)
Definition _main_loop (w : BackendWorker) : BackendWorker :=
  let '(processed_record, w1) := process w in
  if negb processed_record
  then sleep_for (_backend_thread_sleep_duration w1) w1
  else w1.

(** [_exit]: the drain loop.  The fuel bounds the number of iterations;
    [None] means the loop is still going when it runs out. *)
Fixpoint _exit (fuel : nat) (w : BackendWorker) : option BackendWorker :=
  match fuel with
  | O => None
  | S fuel' =>
      let '(processed_record, w1) := process w in
      if processed_record then _exit fuel' w1 else Some w1
  end.

(** [run]: what the caller gets back, and the worker afterwards.  Nothing
    in the once-guarded initialisation throws; the new thread starts at the
    top of its body. *)
Definition run (w : BackendWorker) : (Exception + unit) * BackendWorker :=
  if _start_init_once_flag w then (inr tt, w)
  else
    (inr tt,
     mkWorker (host w) (_config w) (_thread_context_collection w)
       (_handler_collection w) true true
       (backend_thread_sleep_duration (_config w))
       (Thread OnStart) (slept w)).

(** One scheduling step of the worker thread: the start-up block, one
    evaluation of the [while] condition with the loop body that follows
    it, or one iteration of the drain loop. *)
Definition worker_step (w : BackendWorker) : BackendWorker :=
  match _backend_worker_thread w with
  | Thread OnStart =>
      match on_start (host w) (_config w) with
      | inl e => set_thread (Thread (Threw e)) w
      | inr _ => set_thread (Thread Running) w
      end
  | Thread Running =>
      if is_running w then _main_loop w else set_thread (Thread OnExit) w
  | Thread OnExit =>
      let '(processed_record, w1) := process w in
      if processed_record then w1 else set_thread (Thread Finished) w1
  | Thread Finished | Thread (Threw _) | NotAThread => w
  end.

(** [join]: the caller is blocked while the worker thread runs; [None]
    when the thread has not finished within the fuel, or never will. *)
Fixpoint join (fuel : nat) (w : BackendWorker) : option BackendWorker :=
  match _backend_worker_thread w with
  | Thread Finished => Some (set_thread NotAThread w)
  | Thread (Threw _) => None
  | NotAThread => None
  | Thread _ =>
      match fuel with
      | O => None
      | S fuel' => join fuel' (worker_step w)
      end
  end.

(** [stop]: the store, then the join when the thread is joinable. *)
Definition stop (fuel : nat) (w : BackendWorker) : option BackendWorker :=
  let w1 := set_running false w in
  if joinable (_backend_worker_thread w1) then join fuel w1 else Some w1.

(** ** Interleavings *)

(** One atomic action of one thread: a producer pushes onto its lane, a
    new producer thread registers its lane, a client calls [run], a client
    executes the store of [stop], the join of a [stop] returns, or the
    worker thread takes a step.

    Modelled from the spec: the thread context collection is declared in a
    header that is not part of the sources at hand.  The snapshot that the
    worker obtains is the current sequence of lanes; registration appends
    an empty lane; a push onto a position that holds no lane does nothing
    (a producer registers before its first push). *)
Inductive Event :=
  | Push (i : nat) (r : RecordBase)
  | Register (tid : string)
  | CallRun
  | StopStore
  | StopJoin
  | WorkerStep.

Definition apply_event (w : BackendWorker) (e : Event) : BackendWorker :=
  match e with
  | Push i r =>
      set_contexts (alter (push_back r) i (_thread_context_collection w)) w
  | Register tid =>
      set_contexts (_thread_context_collection w ++ [mkContext tid []]) w
  | CallRun => (run w).2
  | StopStore => set_running false w
  | StopJoin =>
      match _backend_worker_thread w with
      | Thread Finished => set_thread NotAThread w
      | _ => w
      end
  | WorkerStep => worker_step w
  end.

Definition exec (w : BackendWorker) (evs : list Event) : BackendWorker :=
  foldl apply_event w evs.

(** ** Running examples *)

Definition ex_lanes : list ThreadContext :=
  [ mkContext "A" [mkRecord 5 0; mkRecord 8 1];
    mkContext "B" [mkRecord 6 2];
    mkContext "C" [] ].

Definition max_lanes : list ThreadContext :=
  [ mkContext "A" [mkRecord UINT64_MAX 0] ].

Definition ex_host : Host := mkHost Posix 0 0 0 0 0.
Definition ex_config : Config := mkConfig 500 UINT16_MAX "Quill_Backend".

(** A worker whose only lane holds one record stamped [2^64 - 1], before
    [run], and once its thread is in the running loop. *)
Definition max_worker : BackendWorker := new_worker ex_host ex_config max_lanes.
Definition max_running : BackendWorker := exec max_worker [CallRun; WorkerStep].

(** The same worker at the start of [_exit], after the stop request was
    observed. *)
Definition max_on_exit : BackendWorker :=
  exec max_running [StopStore; WorkerStep].

(** Two producers; the second pushes an older timestamp after the first
    one's record was dispatched. *)
Definition late_worker : BackendWorker :=
  new_worker ex_host ex_config [mkContext "A" []; mkContext "B" []].
Definition late_trace : list Event :=
  [CallRun; WorkerStep; Push 0 (mkRecord 10 0); WorkerStep;
   Push 1 (mkRecord 5 1); WorkerStep].

(** Two producers whose pushes are never overtaken by a dispatch. *)
Definition timely_trace : list Event :=
  [CallRun; WorkerStep; Push 0 (mkRecord 5 0); Push 1 (mkRecord 6 2);
   WorkerStep; Push 0 (mkRecord 8 1); WorkerStep; WorkerStep; WorkerStep].

(** Two lanes whose heads carry the same timestamp. *)
Definition tie_worker : BackendWorker :=
  new_worker ex_host ex_config
    [mkContext "A" [mkRecord 5 0]; mkContext "B" [mkRecord 5 1]].

(** A host on which [prctl] fails with [EPERM]. *)
Definition failing_host : Host := mkHost Posix 0 0 (-1) 0 1.
Definition failing_worker : BackendWorker :=
  new_worker failing_host ex_config ex_lanes.

(** A worker that was never started. *)
Definition fresh_worker : BackendWorker :=
  new_worker ex_host ex_config ex_lanes.

(** ** Predicates on lanes and merge steps *)

Definition head_of (c : ThreadContext) : option RecordBase :=
  head (spsc_queue c).

(** ** What the scan has found after the first [n] lanes *)

(** Lane [j] holds [r] at its head, [r] is below the initial minimum, no
    head among the first [n] lanes is smaller and no head before [j] is as
    small. *)
Definition first_minimum (cs : list ThreadContext) (n j : nat)
    (c : ThreadContext) (r : RecordBase) : Prop :=
  j < n ∧ cs !! j = Some c ∧ head_of c = Some r ∧
  (timestamp r < UINT64_MAX)%Z ∧
  (∀ k c' r', k < n → cs !! k = Some c' → head_of c' = Some r' →
     (timestamp r <= timestamp r')%Z) ∧
  (∀ k c' r', k < j → cs !! k = Some c' → head_of c' = Some r' →
     (timestamp r < timestamp r')%Z).

(** No head among the first [n] lanes is below the initial minimum. *)
Definition nothing_below_max (cs : list ThreadContext) (n : nat) : Prop :=
  ∀ k c r, k < n → cs !! k = Some c → head_of c = Some r →
    (UINT64_MAX <= timestamp r)%Z.

Definition scan_inv (cs : list ThreadContext) (n : nat) (s : Scan) : Prop :=
  match desired_record_handle s with
  | Invalid =>
      min_rdtsc s = UINT64_MAX ∧ desired_thread_id s = None ∧
      nothing_below_max cs n
  | Valid j r =>
      ∃ c, first_minimum cs n j c r ∧ min_rdtsc s = timestamp r ∧
           desired_thread_id s = Some (thread_id c)
  end.

(** ** The two outcomes of a merge step *)

Inductive step_outcome (cs : list ThreadContext) : Prop :=
  | step_idle :
      nothing_below_max cs (length cs) →
      _process_record cs = (false, cs, []) →
      step_outcome cs
  | step_commit j c r :
      first_minimum cs (length cs) j c r →
      _process_record cs =
        (true, alter pop_front j cs,
         [mkDispatched j (Some (thread_id c)) r]) →
      step_outcome cs.

(** ** The merge step on the worker *)

(** The worker after lane [j] has committed its head [r]. *)
Definition committed (j : nat) (c : ThreadContext) (r : RecordBase)
    (w : BackendWorker) : BackendWorker :=
  mkWorker (host w) (_config w)
    (alter pop_front j (_thread_context_collection w))
    (_handler_collection w ++ [mkDispatched j (Some (thread_id c)) r])
    (_is_running w) (_start_init_once_flag w)
    (_backend_thread_sleep_duration w) (_backend_worker_thread w) (slept w).

Inductive process_outcome (w : BackendWorker) : bool * BackendWorker → Prop :=
  | process_idle :
      nothing_below_max (_thread_context_collection w)
        (length (_thread_context_collection w)) →
      process_outcome w (false, w)
  | process_commit j c r :
      first_minimum (_thread_context_collection w)
        (length (_thread_context_collection w)) j c r →
      process_outcome w (true, committed j c r w).

(** ** What one event does to the lanes and to the handlers *)

Inductive effect (w w' : BackendWorker) : Prop :=
  | effect_none :
      _thread_context_collection w' = _thread_context_collection w →
      _handler_collection w' = _handler_collection w →
      effect w w'
  | effect_push i r :
      _thread_context_collection w' =
        alter (push_back r) i (_thread_context_collection w) →
      _handler_collection w' = _handler_collection w →
      effect w w'
  | effect_register tid :
      _thread_context_collection w' =
        _thread_context_collection w ++ [mkContext tid []] →
      _handler_collection w' = _handler_collection w →
      effect w w'
  | effect_commit j c r :
      first_minimum (_thread_context_collection w)
        (length (_thread_context_collection w)) j c r →
      _thread_context_collection w' =
        alter pop_front j (_thread_context_collection w) →
      _handler_collection w' =
        _handler_collection w ++ [mkDispatched j (Some (thread_id c)) r] →
      effect w w'.

(** The worker thread only ever commits; it never pushes or registers. *)
Inductive engine_effect (w w' : BackendWorker) : Prop :=
  | engine_none :
      _thread_context_collection w' = _thread_context_collection w →
      _handler_collection w' = _handler_collection w →
      engine_effect w w'
  | engine_commit j c r :
      first_minimum (_thread_context_collection w)
        (length (_thread_context_collection w)) j c r →
      _thread_context_collection w' =
        alter pop_front j (_thread_context_collection w) →
      _handler_collection w' =
        _handler_collection w ++ [mkDispatched j (Some (thread_id c)) r] →
      engine_effect w w'.

(** ** Views of a worker and of an execution *)

(** The number of records that are queued in the lanes. *)
Definition pending (cs : list ThreadContext) : nat :=
  sum_list (length ∘ spsc_queue <$> cs).

Definition lane_has (w : BackendWorker) (i : nat) (r : RecordBase) : Prop :=
  ∃ c, _thread_context_collection w !! i = Some c ∧ r ∈ spsc_queue c.

Definition lane_head (w : BackendWorker) (i : nat) (r : RecordBase) : Prop :=
  ∃ c, _thread_context_collection w !! i = Some c ∧ head_of c = Some r.

Definition below_max (d : Dispatched) : Prop :=
  (timestamp (record d) < UINT64_MAX)%Z.

Definition not_from (i : nat) (d : Dispatched) : Prop := source_lane d ≠ i.

(** ** Order of dispatch *)

(** The timestamps pushed onto lane [i] during a trace, oldest first. *)
Fixpoint pushes_to (i : nat) (evs : list Event) : list Z :=
  match evs with
  | [] => []
  | Push k r :: evs' =>
      if decide (k = i) then timestamp r :: pushes_to i evs'
      else pushes_to i evs'
  | _ :: evs' => pushes_to i evs'
  end.

(** Every producer pushes strictly increasing timestamps. *)
Definition producer_order (evs : list Event) : Prop :=
  ∀ i, StronglySorted Z.lt (pushes_to i evs).

Definition dispatched_timestamps (w : BackendWorker) : list Z :=
  (λ d, timestamp (record d)) <$> _handler_collection w.

Definition lane_queue (cs : list ThreadContext) (i : nat) : list RecordBase :=
  from_option spsc_queue [] (cs !! i).

(** The records that lane [i] has dispatched, in the order of dispatch. *)
Definition dispatched_from (i : nat) (out : list Dispatched) : list RecordBase :=
  record <$> filter (λ d, source_lane d = i) out.

(** The worker thread can still reach the end of its body: it has not
    thrown, and it will not throw at start-up. *)
Definition can_finish (w : BackendWorker) : Prop :=
  match _backend_worker_thread w with
  | Thread (Threw _) => False
  | Thread OnStart => on_start (host w) (_config w) = inr tt
  | _ => True
  end.

(** [run] was called, and a later [stop] has returned. *)
Definition stopped (w : BackendWorker) : Prop :=
  _start_init_once_flag w = true ∧
  _backend_worker_thread w = NotAThread ∧
  _is_running w = false.

(** One of the start-up calls whose result the code checks reports a
    failure: on Linux [sched_setaffinity], which is called when an affinity
    is requested, or [prctl]; on macOS [pthread_setname_np]. *)
Definition startup_call_fails (h : Host) (c : Config) : Prop :=
  match platform h with
  | Win32 => False
  | Apple => pthread_setname_np_result h ≠ 0%Z
  | Posix =>
      (backend_thread_cpu_affinity c ≠ UINT16_MAX ∧
       sched_setaffinity_result h = (-1)%Z) ∨
      prctl_result h = (-1)%Z
  end.

(** A macOS host on which [thread_policy_set] fails (KERN_FAILURE) and
    naming the thread succeeds. *)
Definition macos_host : Host := mkHost Apple 0 5 0 0 0.
Definition macos_worker : BackendWorker :=
  new_worker macos_host (mkConfig 500 3 "Quill_Backend") ex_lanes.

(** [run] was called on a host where the start-up block throws [e]. *)
Definition start_fails (e : Exception) (w : BackendWorker) : Prop :=
  _start_init_once_flag w = true ∧
  on_start (host w) (_config w) = inl e ∧
  (_backend_worker_thread w = Thread OnStart ∨
   _backend_worker_thread w = Thread (Threw e)).

(** ** Further views of an execution *)

(** The records pushed onto lane [i] during a trace, oldest first. *)
Fixpoint records_pushed_to (i : nat) (evs : list Event) : list RecordBase :=
  match evs with
  | [] => []
  | Push k r :: evs' =>
      if decide (k = i) then r :: records_pushed_to i evs'
      else records_pushed_to i evs'
  | _ :: evs' => records_pushed_to i evs'
  end.

Definition is_call_run (e : Event) : bool :=
  match e with CallRun => true | _ => false end.

Definition is_stop_store (e : Event) : bool :=
  match e with StopStore => true | _ => false end.

(** The handlers are given the thread id stored in the lane that the
    record came from. *)
Definition from_its_lane (cs : list ThreadContext) (d : Dispatched) : Prop :=
  ∃ c, cs !! source_lane d = Some c ∧ caller_thread_id d = Some (thread_id c).

(** The destructor stops the worker. *)
Definition BackendWorker_destructor (fuel : nat) (w : BackendWorker)
  : option BackendWorker :=
  stop fuel w.

(** Either [run] was never called and there is no worker thread, or [run]
    was called and the sleep duration is the configured one. *)
Definition duration_configured (w : BackendWorker) : Prop :=
  (_start_init_once_flag w = false ∧ _backend_worker_thread w = NotAThread) ∨
  (_start_init_once_flag w = true ∧
   _backend_thread_sleep_duration w
     = backend_thread_sleep_duration (_config w)).

(** The stages of the worker's life, in the order in which it goes through
    them: not started, starting, running, draining, ended (finished or
    thrown), joined. *)
Definition stage (w : BackendWorker) : nat :=
  match _backend_worker_thread w with
  | NotAThread => if _start_init_once_flag w then 5 else 0
  | Thread OnStart => 1
  | Thread Running => 2
  | Thread OnExit => 3
  | Thread Finished | Thread (Threw _) => 4
  end.

(** A worker thread exists only once [run] was called. *)
Definition thread_needs_run (w : BackendWorker) : Prop :=
  _start_init_once_flag w = false → _backend_worker_thread w = NotAThread.

(** The worker thread is in its body: it has neither finished nor thrown. *)
Definition in_body (w : BackendWorker) : Prop :=
  match _backend_worker_thread w with
  | Thread OnStart | Thread Running | Thread OnExit => True
  | _ => False
  end.

(** Every lane holds its records in non-decreasing order of timestamp. *)
Definition lanes_sorted (cs : list ThreadContext) : Prop :=
  ∀ i, StronglySorted Z.le (timestamp <$> lane_queue cs i).

(** ** The merge step while producers push *)

(** Pushes that land one after the other, each onto the lane at the given
    position. *)
Definition push_all (ps : list (nat * RecordBase)) (cs : list ThreadContext)
  : list ThreadContext :=
  foldl (λ cs p, alter (push_back p.2) p.1 cs) cs ps.

(** The loop of [_process_record] while producers push: the pushes
    [arrivals i] land just before the lane at position [i] is examined. *)
Definition scan_racing (arrivals : nat → list (nat * RecordBase))
    (cs : list ThreadContext) : list ThreadContext * Scan :=
  foldl (λ st i, scan_lane (push_all (arrivals i) st.1, st.2) i)
        (cs, scan_init) (seq 0 (length cs)).

(** [_process_record] while producers push; the pushes
    [arrivals (length cs)] land after the loop, before the selected record
    is processed and its handle destroyed. *)
Definition _process_record_racing (arrivals : nat → list (nat * RecordBase))
    (cs : list ThreadContext) : bool * list ThreadContext * list Dispatched :=
  let '(cs1, s) := scan_racing arrivals cs in
  let cs2 := push_all (arrivals (length cs)) cs1 in
  match desired_record_handle s with
  | Valid i r =>
      (true, destroy (desired_record_handle s) cs2,
       [mkDispatched i (desired_thread_id s) r])
  | Invalid => (false, destroy (desired_record_handle s) cs2, [])
  end.

(** All the pushes that land during one merge step over [n] lanes. *)
Definition arrived (arrivals : nat → list (nat * RecordBase)) (n : nat)
  : list (nat * RecordBase) :=
  concat (arrivals <$> seq 0 n).

Definition racing_inv (cs : list ThreadContext) (n : nat)
    (now : list ThreadContext) (s : Scan) : Prop :=
  match desired_record_handle s with
  | Invalid =>
      min_rdtsc s = UINT64_MAX ∧ desired_thread_id s = None ∧
      nothing_below_max cs n
  | Valid j r =>
      ∃ c, now !! j = Some c ∧ head_of c = Some r ∧
           min_rdtsc s = timestamp r ∧
           desired_thread_id s = Some (thread_id c) ∧
           (timestamp r < UINT64_MAX)%Z ∧
           ∀ k c' r', k < n → cs !! k = Some c' → head_of c' = Some r' →
                      (timestamp r <= timestamp r')%Z
  end.

(** ** Executions in which producers push while the merge step runs *)

(** The pushes that land while the worker thread takes one step, as a
    list of lists: the list at position [k] lands just before the lane at
    position [k] is examined; what is listed from position [n] on, where
    [n] is the number of lanes of the snapshot, lands after the loop and
    before the selected record is processed. *)
Definition schedule (landing : list (list (nat * RecordBase))) (n : nat)
  : nat → list (nat * RecordBase) :=
  λ k, if decide (k < n) then default [] (landing !! k)
       else concat (drop n landing).

(** Pushes land on the lanes of the worker. *)
Definition land (ps : list (nat * RecordBase)) (w : BackendWorker)
  : BackendWorker :=
  set_contexts (push_all ps (_thread_context_collection w)) w.

(** [_process_record] on the worker's own collections while producers
    push. *)
Definition process_racing (landing : list (list (nat * RecordBase)))
    (w : BackendWorker) : bool * BackendWorker :=
  let '(processed_record, cs, out) :=
    _process_record_racing
      (schedule landing (length (_thread_context_collection w)))
      (_thread_context_collection w) in
  (processed_record,
   mkWorker (host w) (_config w) cs
     (_handler_collection w ++ out) (_is_running w) (_start_init_once_flag w)
     (_backend_thread_sleep_duration w) (_backend_worker_thread w) (slept w)).

(** One step of the worker thread while producers push.  Where the step
    is a merge step, of [_main_loop] or of the drain loop, the pushes land
    as scheduled; where it is not, they land all the same. *)
Definition worker_step_racing (landing : list (list (nat * RecordBase)))
    (w : BackendWorker) : BackendWorker :=
  match _backend_worker_thread w with
  | Thread Running =>
      if is_running w then
        let '(processed_record, w1) := process_racing landing w in
        if negb processed_record
        then sleep_for (_backend_thread_sleep_duration w1) w1
        else w1
      else land (concat landing) (worker_step w)
  | Thread OnExit =>
      let '(processed_record, w1) := process_racing landing w in
      if processed_record then w1 else set_thread (Thread Finished) w1
  | _ => land (concat landing) (worker_step w)
  end.

(** An event of [Event] between two steps of the worker thread, or a
    step of the worker thread during which pushes land. *)
Inductive RacingEvent :=
  | Between (e : Event)
  | RacingStep (landing : list (list (nat * RecordBase))).

Definition apply_racing (w : BackendWorker) (e : RacingEvent) : BackendWorker :=
  match e with
  | Between e => apply_event w e
  | RacingStep landing => worker_step_racing landing w
  end.

Definition exec_racing (w : BackendWorker) (evs : list RacingEvent)
  : BackendWorker :=
  foldl apply_racing w evs.

(** The pushes that land with an event, in the order in which they
    land. *)
Definition landed (e : RacingEvent) : list (nat * RecordBase) :=
  match e with
  | Between (Push i r) => [(i, r)]
  | Between _ => []
  | RacingStep landing => concat landing
  end.

(** The timestamps that [ps] pushes onto lane [i], oldest first. *)
Fixpoint pushed_onto (i : nat) (ps : list (nat * RecordBase)) : list Z :=
  match ps with
  | [] => []
  | (k, r) :: ps' =>
      if decide (k = i) then timestamp r :: pushed_onto i ps'
      else pushed_onto i ps'
  end.

(** The timestamps pushed onto lane [i] during a trace, oldest first. *)
Fixpoint pushes_to_racing (i : nat) (evs : list RacingEvent) : list Z :=
  match evs with
  | [] => []
  | e :: evs' => pushed_onto i (landed e) ++ pushes_to_racing i evs'
  end.

(** Every producer pushes strictly increasing timestamps. *)
Definition producer_order_racing (evs : list RacingEvent) : Prop :=
  ∀ i, StronglySorted Z.lt (pushes_to_racing i evs).

(** No record lands with a timestamp below that of a record dispatched
    before it lands, or dispatched by the merge step during which it
    lands. *)
Fixpoint never_overtaken (w : BackendWorker) (evs : list RacingEvent) : Prop :=
  match evs with
  | [] => True
  | e :: evs' =>
      Forall (λ p, Forall (λ t, (t <= timestamp p.2)%Z)
                     (dispatched_timestamps (apply_racing w e)))
             (landed e) ∧
      never_overtaken (apply_racing w e) evs'
  end.

(** The lane at position [k] as the loop finds it: with every push that
    has landed when the lane is examined. *)
Definition observed (arrivals : nat → list (nat * RecordBase))
    (cs : list ThreadContext) (k : nat) : option ThreadContext :=
  push_all (arrived arrivals (S k)) cs !! k.

Definition observed_inv (arrivals : nat → list (nat * RecordBase))
    (cs : list ThreadContext) (n : nat) (s : Scan) : Prop :=
  (∀ k c r, k < n → observed arrivals cs k = Some c → head_of c = Some r →
            (min_rdtsc s <= timestamp r)%Z) ∧
  match desired_record_handle s with
  | Invalid => True
  | Valid j r =>
      j < n ∧ min_rdtsc s = timestamp r ∧
      ∃ c, observed arrivals cs j = Some c ∧ head_of c = Some r
  end.

(** The dispatched timestamps are in order, every lane followed by what
    will be pushed onto it is strictly increasing, and nothing queued is
    older than anything dispatched. *)
Definition ordered_with (fut : nat → list Z) (w : BackendWorker) : Prop :=
  StronglySorted Z.le (dispatched_timestamps w) ∧
  (∀ i, StronglySorted Z.lt
          ((timestamp <$> lane_queue (_thread_context_collection w) i)
             ++ fut i)) ∧
  (∀ t i r, t ∈ dispatched_timestamps w →
            r ∈ lane_queue (_thread_context_collection w) i →
            (t <= timestamp r)%Z).

(** Both producers push while the merge step is between the two lanes:
    the first lane has already been examined. *)
Definition racing_trace : list RacingEvent :=
  [Between CallRun; Between WorkerStep;
   RacingStep [[]; [(0, mkRecord 5 0); (1, mkRecord 10 1)]];
   RacingStep []].

(** Pushes that land during merge steps without being overtaken. *)
Definition racing_timely_trace : list RacingEvent :=
  [Between CallRun; Between WorkerStep;
   RacingStep [[(1, mkRecord 6 2)]; [(0, mkRecord 7 0)]];
   RacingStep [[]; []; [(0, mkRecord 8 1)]];
   Between (Push 1 (mkRecord 9 3));
   RacingStep []; RacingStep []].

(** ** Calls of [stop] that overlap *)

(** Where a thread that called [stop] is: before the store, before the
    test of [joinable], before its call of [join] returns, or returned.
    [std::thread::join] throws when the thread object is not joinable, as
    it is once another caller's [join] has returned; [stop] is
    [noexcept], so the exception ends the process in [std::terminate] and
    the call never returns. *)
Inductive StopPc := AtStore | AtJoinable | AtJoin | Returned | Terminated.

(** One atomic action of a thread that called [stop].  A caller in [join]
    is blocked until the worker thread has finished. *)
Definition stop_step (pc : StopPc) (w : BackendWorker)
  : StopPc * BackendWorker :=
  match pc with
  | AtStore => (AtJoinable, set_running false w)
  | AtJoinable =>
      if joinable (_backend_worker_thread w) then (AtJoin, w)
      else (Returned, w)
  | AtJoin =>
      match _backend_worker_thread w with
      | Thread Finished => (Returned, set_thread NotAThread w)
      | Thread _ => (AtJoin, w)
      | NotAThread => (Terminated, w)
      end
  | Returned | Terminated => (pc, w)
  end.

(** The callers of [stop] next to everything else that happens: caller
    [k] takes its next action, or one of the events of [Event] occurs. *)
Inductive CallEvent :=
  | Caller (k : nat)
  | Other (e : Event).

Definition apply_call (st : list StopPc * BackendWorker) (ev : CallEvent)
  : list StopPc * BackendWorker :=
  match ev with
  | Caller k =>
      match st.1 !! k with
      | Some pc =>
          let '(pc', w') := stop_step pc st.2 in (<[k := pc']> st.1, w')
      | None => st
      end
  | Other e => (st.1, apply_event st.2 e)
  end.

Definition exec_calls (st : list StopPc * BackendWorker)
    (evs : list CallEvent) : list StopPc * BackendWorker :=
  foldl apply_call st evs.

(** Two threads call [stop] on a running engine; both have tested
    [joinable] before the worker thread has finished. *)
Definition overlapping_stops : list CallEvent :=
  [Caller 0; Caller 1; Caller 0; Caller 1;
   Other WorkerStep; Other WorkerStep; Other WorkerStep; Other WorkerStep;
   Caller 0; Caller 1].

(** One call of [stop] during which the worker thread takes [k] steps. *)
Definition one_stop (k : nat) : list CallEvent :=
  [Caller 0; Caller 0] ++ (Other <$> replicate k WorkerStep) ++ [Caller 0].

(** * Proofs *)

(** ** The scan leaves every lane as it found it *)

Lemma scan_lane_contexts cs s i : (scan_lane (cs, s) i).1 = cs.
Proof.
  unfold scan_lane. destruct (cs !! i) as [elem|]; [|done].
  unfold try_pop. destruct (spsc_queue elem) as [|r q]; [done|].
  destruct (timestamp r <? min_rdtsc s)%Z; done.
Qed.

Lemma scan_prefix_contexts cs s l : (foldl scan_lane (cs, s) l).1 = cs.
Proof.
  revert s. induction l as [|i l IH] using rev_ind; intros s; [done|].
  rewrite foldl_snoc.
  destruct (foldl scan_lane (cs, s) l) as [cs' s'] eqn:E.
  specialize (IH s). rewrite E in IH. simpl in IH. subst cs'.
  apply scan_lane_contexts.
Qed.

Lemma scan_contexts cs : (scan cs).1 = cs.
Proof. apply scan_prefix_contexts. Qed.

(** ** What the scan has found after the first [n] lanes *)

Lemma scan_inv_init cs : scan_inv cs 0 scan_init.
Proof. repeat split. intros k c r Hk. lia. Qed.

Lemma head_of_try_pop i c :
  try_pop i c = match head_of c with Some r => Valid i r | None => Invalid end.
Proof. unfold try_pop, head_of. by destruct (spsc_queue c). Qed.

Lemma scan_inv_step cs n s :
  n < length cs → scan_inv cs n s → scan_inv cs (S n) (scan_lane (cs, s) n).2.
Proof.
  intros Hn Hinv. unfold scan_lane.
  destruct (lookup_lt_is_Some_2 cs n Hn) as [elem Helem]. rewrite Helem.
  rewrite head_of_try_pop. destruct (head_of elem) as [r|] eqn:Hhd; simpl.
  - destruct (Z.ltb_spec (timestamp r) (min_rdtsc s)) as [Hlt|Hge]; simpl.
    + (* a new minimum *)
      unfold scan_inv in *; simpl. exists elem. split; [|done].
      destruct (desired_record_handle s) as [|j r0].
      * destruct Hinv as (Hmin & _ & Hall).
        repeat split; try done; try lia.
        -- intros k c' r' Hk Hc' Hr'.
           destruct (decide (k = n)) as [->|Hne]; [naive_solver lia|].
           specialize (Hall k c' r' ltac:(lia) Hc' Hr'). lia.
        -- intros k c' r' Hk Hc' Hr'.
           specialize (Hall k c' r' ltac:(lia) Hc' Hr'). lia.
      * destruct Hinv as (c0 & (Hj & Hc0 & Hr0 & Hmax & Hle & Hlt0) & Hmin & _).
        repeat split; try done; try lia.
        -- intros k c' r' Hk Hc' Hr'.
           destruct (decide (k = n)) as [->|Hne]; [naive_solver lia|].
           specialize (Hle k c' r' ltac:(lia) Hc' Hr'). lia.
        -- intros k c' r' Hk Hc' Hr'.
           specialize (Hle k c' r' ltac:(lia) Hc' Hr'). lia.
    + (* not below the running minimum: released *)
      unfold scan_inv in *. destruct (desired_record_handle s) as [|j r0].
      * destruct Hinv as (Hmin & Htid & Hall). repeat split; try done.
        intros k c' r' Hk Hc' Hr'.
        destruct (decide (k = n)) as [->|Hne]; [naive_solver lia|].
        apply (Hall k c' r'); [lia|done..].
      * destruct Hinv as (c0 & (Hj & Hc0 & Hr0 & Hmax & Hle & Hlt0) & Hmin & Htid).
        exists c0. repeat split; try done; try lia.
        intros k c' r' Hk Hc' Hr'.
        destruct (decide (k = n)) as [->|Hne]; [naive_solver lia|].
        apply (Hle k c' r'); [lia|done..].
  - (* an empty lane *)
    unfold scan_inv in *. destruct (desired_record_handle s) as [|j r0].
    + destruct Hinv as (Hmin & Htid & Hall). repeat split; try done.
      intros k c' r' Hk Hc' Hr'.
      destruct (decide (k = n)) as [->|Hne]; [naive_solver|].
      apply (Hall k c' r'); [lia|done..].
    + destruct Hinv as (c0 & (Hj & Hc0 & Hr0 & Hmax & Hle & Hlt0) & Hmin & Htid).
      exists c0. repeat split; try done; try lia.
      intros k c' r' Hk Hc' Hr'.
      destruct (decide (k = n)) as [->|Hne]; [naive_solver|].
      apply (Hle k c' r'); [lia|done..].
Qed.

Lemma scan_inv_prefix cs n :
  n ≤ length cs →
  scan_inv cs n (foldl scan_lane (cs, scan_init) (seq 0 n)).2.
Proof.
  induction n as [|n IH]; intros Hn; [apply scan_inv_init|].
  rewrite seq_S, foldl_snoc. simpl.
  pose proof (scan_prefix_contexts cs scan_init (seq 0 n)) as Hcs.
  destruct (foldl scan_lane (cs, scan_init) (seq 0 n)) as [cs' s'].
  simpl in *. subst cs'. apply scan_inv_step; [lia|]. apply IH. lia.
Qed.

Lemma scan_inv_all cs : scan_inv cs (length cs) (scan cs).2.
Proof. by apply scan_inv_prefix. Qed.

(** ** The two outcomes of a merge step *)

Lemma process_record_outcome cs : step_outcome cs.
Proof.
  pose proof (scan_inv_all cs) as Hinv. pose proof (scan_contexts cs) as Hcs.
  destruct (scan cs) as [cs1 s] eqn:E. simpl in *. subst cs1.
  unfold scan_inv in Hinv.
  destruct (desired_record_handle s) as [|j r] eqn:Hd.
  - destruct Hinv as (_ & _ & Hall). apply step_idle; [done|].
    unfold _process_record. by rewrite E, Hd.
  - destruct Hinv as (c & Hfm & _ & Htid). apply (step_commit cs j c r); [done|].
    unfold _process_record. by rewrite E, Hd, Htid.
Qed.

Lemma process_spec w : process_outcome w (process w).
Proof.
  unfold process.
  destruct (process_record_outcome (_thread_context_collection w))
    as [Hall ->|j c r Hfm ->].
  - rewrite app_nil_r. destruct w. by apply process_idle.
  - by apply (process_commit w j c r).
Qed.

(** ** What one event does to the lanes and to the handlers *)

Lemma engine_effect_effect w w' : engine_effect w w' → effect w w'.
Proof.
  intros [Hcs Hlog|j c r Hfm Hcs Hlog];
    [by apply effect_none|by apply (effect_commit _ _ j c r)].
Qed.

Lemma process_engine_effect w : engine_effect w (process w).2.
Proof.
  destruct (process_spec w) as [_|j c r Hfm]; simpl.
  - by apply engine_none.
  - by apply (engine_commit _ _ j c r).
Qed.

Lemma main_loop_engine_effect w : engine_effect w (_main_loop w).
Proof.
  unfold _main_loop. pose proof (process_engine_effect w) as H.
  destruct (process w) as [[] w1]; simpl in *; [done|].
  destruct H; [by apply engine_none|by eapply engine_commit].
Qed.

Lemma worker_step_engine_effect w : engine_effect w (worker_step w).
Proof.
  unfold worker_step.
  destruct (_backend_worker_thread w) as [|[]]; try by apply engine_none.
  - destruct (on_start _ _); by apply engine_none.
  - destruct (is_running w);
      [apply main_loop_engine_effect|by apply engine_none].
  - pose proof (process_engine_effect w) as H.
    destruct (process w) as [[] w1]; simpl in *; [done|].
    destruct H; [by apply engine_none|by eapply engine_commit].
Qed.

Lemma process_effect w : effect w (process w).2.
Proof. apply engine_effect_effect, process_engine_effect. Qed.

Lemma worker_step_effect w : effect w (worker_step w).
Proof. apply engine_effect_effect, worker_step_engine_effect. Qed.

(** Every event other than a push or a registration leaves the lanes to
    the worker thread. *)
Lemma apply_event_engine_effect w e :
  match e with
  | Push _ _ | Register _ => True
  | _ => engine_effect w (apply_event w e)
  end.
Proof.
  destruct e as [i r|tid| | | |]; simpl; try done.
  - unfold run. destruct (_start_init_once_flag w); by apply engine_none.
  - by apply engine_none.
  - destruct (_backend_worker_thread w) as [|[]]; by apply engine_none.
  - apply worker_step_engine_effect.
Qed.

Lemma apply_event_effect w e : effect w (apply_event w e).
Proof.
  destruct e as [i r|tid| | | |]; simpl.
  - by apply (effect_push _ _ i r).
  - by apply (effect_register _ _ tid).
  - unfold run. destruct (_start_init_once_flag w); by apply effect_none.
  - by apply effect_none.
  - destruct (_backend_worker_thread w) as [|[]]; by apply effect_none.
  - apply worker_step_effect.
Qed.

(** ** Executions as chains of effects *)

Lemma set_running_effect b w : effect w (set_running b w).
Proof. by apply effect_none. Qed.

Lemma set_thread_effect t w : effect w (set_thread t w).
Proof. by apply effect_none. Qed.

Lemma exec_effects evs w : rtc effect w (exec w evs).
Proof.
  revert w. induction evs as [|e evs IH]; intros w; [done|].
  simpl. eapply rtc_l; [apply apply_event_effect|apply IH].
Qed.

Lemma exit_effects fuel w w' : _exit fuel w = Some w' → rtc effect w w'.
Proof.
  revert w. induction fuel as [|fuel IH]; intros w; [done|]. simpl.
  pose proof (process_effect w) as H.
  destruct (process w) as [[] w1]; simpl in *.
  - intros Hx. eapply rtc_l; [exact H|by apply IH].
  - intros [= <-]. by apply rtc_once.
Qed.

Lemma join_effects fuel w w' : join fuel w = Some w' → rtc effect w w'.
Proof.
  revert w. induction fuel as [|fuel IH]; intros w; simpl.
  - destruct (_backend_worker_thread w) as [|[]]; try done.
    intros [= <-]. apply rtc_once, set_thread_effect.
  - destruct (_backend_worker_thread w) as [|[]]; try done;
      try (intros Hj; eapply rtc_l; [apply worker_step_effect|by apply IH]).
    intros [= <-]. apply rtc_once, set_thread_effect.
Qed.

Lemma stop_effects fuel w w' : stop fuel w = Some w' → rtc effect w w'.
Proof.
  unfold stop. destruct (joinable _).
  - intros Hj. eapply rtc_l; [apply set_running_effect|by eapply join_effects].
  - intros [= <-]. apply rtc_once, set_running_effect.
Qed.

(** ** Lanes along an execution *)

Lemma head_of_push_back r0 c r :
  head_of c = Some r → head_of (push_back r0 c) = Some r.
Proof. unfold head_of, push_back. simpl. by destruct (spsc_queue c). Qed.

Lemma head_of_elem c r : head_of c = Some r → r ∈ spsc_queue c.
Proof.
  unfold head_of. destruct (spsc_queue c); [done|]. intros [= ->]. left.
Qed.

(** The head of a lane stays where it is until the step that commits it. *)
Lemma effect_lane_head w w' i r :
  effect w w' → lane_head w i r →
  (lane_head w' i r ∧
   ∃ new, _handler_collection w' = _handler_collection w ++ new ∧
          Forall (not_from i) new) ∨
  (∃ c, first_minimum (_thread_context_collection w)
          (length (_thread_context_collection w)) i c r ∧
        _thread_context_collection w' =
          alter pop_front i (_thread_context_collection w) ∧
        _handler_collection w' =
          _handler_collection w ++ [mkDispatched i (Some (thread_id c)) r]).
Proof.
  intros [Hcs Hlog|k r0 Hcs Hlog|tid Hcs Hlog|j c0 r0 Hfm Hcs Hlog] (c & Hc & Hhd).
  - left. split; [exists c; by rewrite Hcs|].
    exists []. by rewrite app_nil_r.
  - left. split; [|exists []; by rewrite app_nil_r].
    destruct (decide (k = i)) as [->|Hne].
    + exists (push_back r0 c). rewrite Hcs, list_lookup_alter_eq, Hc.
      split; [done|by apply head_of_push_back].
    + exists c. by rewrite Hcs, list_lookup_alter_ne.
  - left. split; [|exists []; by rewrite app_nil_r].
    exists c. rewrite Hcs. split; [|done].
    apply lookup_app_l_Some, Hc.
  - destruct (decide (j = i)) as [->|Hne].
    + right. pose proof Hfm as (_ & Hc0 & Hr0 & _).
      assert (c0 = c) as -> by congruence.
      assert (r0 = r) as -> by congruence. by exists c.
    + left. split; [exists c; by rewrite Hcs, list_lookup_alter_ne|].
      exists [mkDispatched j (Some (thread_id c0)) r0]. split; [done|].
      by repeat constructor.
Qed.

Lemma effect_below_max w w' :
  effect w w' →
  ∃ new, _handler_collection w' = _handler_collection w ++ new ∧
         Forall below_max new.
Proof.
  intros [Hcs Hlog|k r0 Hcs Hlog|tid Hcs Hlog|j c0 r0 Hfm Hcs Hlog];
    try (exists []; by rewrite app_nil_r).
  eexists. split; [done|]. repeat constructor.
  unfold below_max. simpl. apply Hfm.
Qed.

Lemma effect_lane_has_max w w' i r :
  effect w w' → timestamp r = UINT64_MAX → lane_has w i r → lane_has w' i r.
Proof.
  intros [Hcs Hlog|k r0 Hcs Hlog|tid Hcs Hlog|j c0 r0 Hfm Hcs Hlog] Hts
    (c & Hc & Hin).
  - exists c. by rewrite Hcs.
  - destruct (decide (k = i)) as [->|Hne].
    + exists (push_back r0 c). rewrite Hcs, list_lookup_alter_eq, Hc.
      split; [done|]. simpl. apply elem_of_app. by left.
    + exists c. by rewrite Hcs, list_lookup_alter_ne.
  - exists c. rewrite Hcs. split; [|done]. apply lookup_app_l_Some, Hc.
  - destruct (decide (j = i)) as [->|Hne].
    + exists (pop_front c). rewrite Hcs, list_lookup_alter_eq, Hc.
      split; [done|]. simpl.
      destruct Hfm as (_ & Hc0 & Hr0 & Hlt & _).
      assert (c0 = c) as -> by congruence.
      unfold head_of in Hr0. destruct (spsc_queue c) as [|r1 q]; [done|].
      injection Hr0 as ->. simpl.
      apply elem_of_cons in Hin as [->|Hin]; [lia|done].
    + exists c. by rewrite Hcs, list_lookup_alter_ne.
Qed.

(** The same facts along a chain of effects. *)
Lemma effects_below_max w w' :
  rtc effect w w' →
  ∃ new, _handler_collection w' = _handler_collection w ++ new ∧
         Forall below_max new.
Proof.
  induction 1 as [w|w w1 w' Hstep _ (new2 & E2 & H2)].
  - exists []. by rewrite app_nil_r.
  - destruct (effect_below_max _ _ Hstep) as (new1 & E1 & H1).
    exists (new1 ++ new2). rewrite E2, E1, app_assoc.
    split; [done|by apply Forall_app].
Qed.

Lemma effects_lane_has_max w w' i r :
  rtc effect w w' → timestamp r = UINT64_MAX →
  lane_has w i r → lane_has w' i r.
Proof.
  induction 1 as [w|w w1 w' Hstep _ IH]; [done|].
  intros Hts Hin. apply IH; [done|]. by eapply effect_lane_has_max.
Qed.

Lemma effects_lane_head_max w w' i r :
  rtc effect w w' → timestamp r = UINT64_MAX → lane_head w i r →
  lane_head w' i r ∧
  ∃ new, _handler_collection w' = _handler_collection w ++ new ∧
         Forall (not_from i) new.
Proof.
  induction 1 as [w|w w1 w' Hstep _ IH]; intros Hts Hhd.
  - split; [done|]. exists []. by rewrite app_nil_r.
  - destruct (effect_lane_head _ _ i r Hstep Hhd)
      as [(Hhd1 & new1 & E1 & H1)|(c & Hfm & _)].
    + destruct (IH Hts Hhd1) as (Hhd' & new2 & E2 & H2). split; [done|].
      exists (new1 ++ new2). rewrite E2, E1, app_assoc.
      split; [done|by apply Forall_app].
    + destruct Hfm as (_ & _ & _ & Hlt & _). lia.
Qed.

(** ** The merge step while producers push *)

Lemma push_all_app ps1 ps2 cs :
  push_all (ps1 ++ ps2) cs = push_all ps2 (push_all ps1 cs).
Proof. unfold push_all. by rewrite foldl_app. Qed.

Lemma push_all_length ps :
  ∀ cs, length (push_all ps cs) = length cs.
Proof.
  induction ps as [|p ps IH]; intros cs; [done|].
  simpl. by rewrite IH, length_alter.
Qed.

Lemma push_all_lookup ps :
  ∀ (cs : list ThreadContext) j c,
    cs !! j = Some c →
    ∃ c', push_all ps cs !! j = Some c' ∧ thread_id c' = thread_id c ∧
          ∀ r, head_of c = Some r → head_of c' = Some r.
Proof.
  induction ps as [|[i r0] ps IH]; intros cs j c Hc; simpl.
  - by exists c.
  - destruct (decide (i = j)) as [->|Hne].
    + destruct (IH (alter (push_back r0) j cs) j (push_back r0 c))
        as (c' & Hc' & Htid & Hhd).
      { by rewrite list_lookup_alter_eq, Hc. }
      exists c'. split; [done|]. split; [done|].
      intros r Hr. by apply Hhd, head_of_push_back.
    + apply IH. by rewrite list_lookup_alter_ne.
Qed.

Lemma arrived_S arrivals n :
  arrived arrivals (S n) = arrived arrivals n ++ arrivals n.
Proof.
  unfold arrived. rewrite seq_S, fmap_app, concat_app. simpl.
  by rewrite app_nil_r.
Qed.

Lemma racing_inv_step cs n now s elem :
  n < length cs →
  (∀ c0 r0, cs !! n = Some c0 → head_of c0 = Some r0 → head_of elem = Some r0) →
  now !! n = Some elem →
  racing_inv cs n now s →
  racing_inv cs (S n) now (scan_lane (now, s) n).2.
Proof.
  intros Hn Horig Helem Hinv. unfold scan_lane. rewrite Helem.
  rewrite head_of_try_pop.
  assert (∀ (P : RecordBase → Prop),
            (∀ c0 r0, cs !! n = Some c0 → head_of c0 = Some r0 → P r0) →
            (∀ k c' r', k < n → cs !! k = Some c' → head_of c' = Some r' → P r') →
            ∀ k c' r', k < S n → cs !! k = Some c' → head_of c' = Some r' → P r')
    as Hext.
  { intros P Hlast Hbefore k c' r' Hk Hc' Hr'.
    destruct (decide (k = n)) as [->|Hne]; [by eapply Hlast|].
    apply (Hbefore k c' r'); [lia|done..]. }
  destruct (head_of elem) as [rn|] eqn:Hhd; simpl.
  - destruct (Z.ltb_spec (timestamp rn) (min_rdtsc s)) as [Hlt|Hge]; simpl.
    + unfold racing_inv, nothing_below_max in *. simpl. exists elem.
      destruct (desired_record_handle s) as [|j r].
      * destruct Hinv as (Hmin & _ & Hall).
        repeat split; try done; [lia|].
        apply (Hext (λ r', timestamp rn <= timestamp r')%Z).
        -- intros c0 r0 Hc0 Hr0. specialize (Horig c0 r0 Hc0 Hr0).
           assert (r0 = rn) as -> by congruence. lia.
        -- intros k c' r' Hk Hc' Hr'. specialize (Hall k c' r' Hk Hc' Hr'). lia.
      * destruct Hinv as (c & Hc & Hr & Hmin & _ & Hmax & Hle).
        repeat split; try done; [lia|].
        apply (Hext (λ r', timestamp rn <= timestamp r')%Z).
        -- intros c0 r0 Hc0 Hr0. specialize (Horig c0 r0 Hc0 Hr0).
           assert (r0 = rn) as -> by congruence. lia.
        -- intros k c' r' Hk Hc' Hr'. specialize (Hle k c' r' Hk Hc' Hr'). lia.
    + unfold racing_inv, nothing_below_max in *. destruct (desired_record_handle s) as [|j r].
      * destruct Hinv as (Hmin & Htid & Hall). repeat split; try done.
        apply (Hext (λ r', UINT64_MAX <= timestamp r')%Z); [|done].
        intros c0 r0 Hc0 Hr0. specialize (Horig c0 r0 Hc0 Hr0).
        assert (r0 = rn) as -> by congruence. lia.
      * destruct Hinv as (c & Hc & Hr & Hmin & Htid & Hmax & Hle).
        exists c. repeat split; try done.
        apply (Hext (λ r', timestamp r <= timestamp r')%Z); [|done].
        intros c0 r0 Hc0 Hr0. specialize (Horig c0 r0 Hc0 Hr0).
        assert (r0 = rn) as -> by congruence. lia.
  - unfold racing_inv, nothing_below_max in *. destruct (desired_record_handle s) as [|j r].
    + destruct Hinv as (Hmin & Htid & Hall). repeat split; try done.
      apply (Hext (λ r', UINT64_MAX <= timestamp r')%Z); [|done].
      intros c0 r0 Hc0 Hr0. specialize (Horig c0 r0 Hc0 Hr0). congruence.
    + destruct Hinv as (c & Hc & Hr & Hmin & Htid & Hmax & Hle).
      exists c. repeat split; try done.
      apply (Hext (λ r', timestamp r <= timestamp r')%Z); [|done].
      intros c0 r0 Hc0 Hr0. specialize (Horig c0 r0 Hc0 Hr0). congruence.
Qed.

Lemma racing_inv_pushes cs n now s ps :
  racing_inv cs n now s → racing_inv cs n (push_all ps now) s.
Proof.
  unfold racing_inv. destruct (desired_record_handle s) as [|j r]; [done|].
  intros (c & Hc & Hr & Hmin & Htid & Hrest).
  destruct (push_all_lookup ps now j c Hc) as (c' & Hc' & Htid' & Hhd).
  exists c'. rewrite Htid'. split; [done|]. split; [by apply Hhd|].
  split; [done|]. split; [done|]. exact Hrest.
Qed.

Lemma scan_racing_prefix arrivals cs n :
  n ≤ length cs →
  let st := foldl (λ st i, scan_lane (push_all (arrivals i) st.1, st.2) i)
                  (cs, scan_init) (seq 0 n) in
  st.1 = push_all (arrived arrivals n) cs ∧ racing_inv cs n st.1 st.2.
Proof.
  induction n as [|n IH]; intros Hn; cbv zeta.
  - split; [done|]. repeat split. intros k c r Hk. lia.
  - rewrite seq_S, foldl_snoc.
    destruct (IH ltac:(lia)) as [Hst Hinv]. cbv zeta in Hst, Hinv.
    destruct (foldl _ (cs, scan_init) (seq 0 n)) as [now s].
    cbn [fst snd] in *. rewrite Nat.add_0_l.
    rewrite scan_lane_contexts, arrived_S, push_all_app, <- Hst.
    split; [done|].
    assert (n < length now) as Hn'.
    { rewrite Hst, push_all_length. lia. }
    destruct (lookup_lt_is_Some_2 (push_all (arrivals n) now) n)
      as [elem Helem]; [rewrite push_all_length; lia|].
    apply (racing_inv_step cs n _ s elem); [lia| |done|].
    + intros c0 r0 Hc0 Hr0.
      destruct (push_all_lookup (arrived arrivals n ++ arrivals n) cs n c0 Hc0)
        as (c' & Hc' & _ & Hhd).
      rewrite push_all_app, <- Hst, Helem in Hc'. injection Hc' as <-.
      by apply Hhd.
    + by apply racing_inv_pushes.
Qed.

Lemma observed_inv_step arrivals cs n s :
  observed_inv arrivals cs n s →
  observed_inv arrivals cs (S n)
    (scan_lane (push_all (arrived arrivals (S n)) cs, s) n).2.
Proof.
  intros [Hle Hsel]. unfold scan_lane.
  assert (∀ (m : Z),
            (m <= min_rdtsc s)%Z →
            (∀ c r, observed arrivals cs n = Some c → head_of c = Some r →
                    (m <= timestamp r)%Z) →
            ∀ k c r, k < S n → observed arrivals cs k = Some c →
                     head_of c = Some r → (m <= timestamp r)%Z) as Hext.
  { intros m Hm Hlast k c r Hk Hc Hr.
    destruct (decide (k = n)) as [->|Hne]; [by eapply Hlast|].
    specialize (Hle k c r ltac:(lia) Hc Hr). lia. }
  assert (match desired_record_handle s with
          | Invalid => True
          | Valid j r =>
              j < S n ∧ min_rdtsc s = timestamp r ∧
              ∃ c, observed arrivals cs j = Some c ∧ head_of c = Some r
          end) as Hsel'.
  { destruct (desired_record_handle s) as [|j r]; [done|].
    destruct Hsel as (Hj & Hrest). split; [lia|done]. }
  fold (observed arrivals cs n).
  destruct (observed arrivals cs n) as [elem|] eqn:Helem.
  - rewrite head_of_try_pop.
    destruct (head_of elem) as [rn|] eqn:Hhd; simpl.
    + destruct (Z.ltb_spec (timestamp rn) (min_rdtsc s)) as [Hlt|Hge]; simpl.
      * split.
        -- apply Hext; simpl; [lia|]. intros c r [= <-] Hr.
           assert (r = rn) as -> by congruence. lia.
        -- split; [lia|]. split; [done|]. by exists elem.
      * split; [|done]. apply Hext; simpl; [lia|]. intros c r [= <-] Hr.
        assert (r = rn) as -> by congruence. lia.
    + split; [|done]. apply Hext; simpl; [lia|]. intros c r [= <-] Hr. congruence.
  - split; [|done]. apply Hext; simpl; [lia|]. intros c r [=].
Qed.

Lemma observed_inv_prefix arrivals cs n :
  n ≤ length cs →
  observed_inv arrivals cs n
    (foldl (λ st i, scan_lane (push_all (arrivals i) st.1, st.2) i)
           (cs, scan_init) (seq 0 n)).2.
Proof.
  induction n as [|n IH]; intros Hn.
  - split; [|done]. intros k c r Hk. lia.
  - rewrite seq_S, foldl_snoc.
    specialize (IH ltac:(lia)).
    destruct (scan_racing_prefix arrivals cs n ltac:(lia)) as [Hst _].
    cbv zeta in Hst.
    destruct (foldl _ (cs, scan_init) (seq 0 n)) as [now s].
    cbn [fst snd] in *. rewrite Nat.add_0_l.
    rewrite Hst, <- push_all_app, <- arrived_S.
    by apply observed_inv_step.
Qed.

Lemma arrived_schedule landing n :
  arrived (schedule landing n) (S n) = concat landing.
Proof.
  assert (∀ m, m ≤ n →
            arrived (schedule landing n) m = concat (take m landing)) as Hpre.
  { induction m as [|m IH]; intros Hm; [done|].
    rewrite arrived_S, IH by lia. unfold schedule.
    rewrite decide_True by lia.
    destruct (landing !! m) as [ps|] eqn:Hps; simpl.
    - rewrite (take_S_r _ _ _ Hps), concat_app. simpl. by rewrite app_nil_r.
    - apply lookup_ge_None_1 in Hps.
      rewrite !take_ge by lia. by rewrite app_nil_r. }
  rewrite arrived_S, Hpre by lia. unfold schedule.
  rewrite decide_False by lia.
  by rewrite <- concat_app, take_drop.
Qed.

Lemma process_record_racing_outcome arrivals cs :
  let after := push_all (arrived arrivals (S (length cs))) cs in
  _process_record_racing arrivals cs = (false, after, []) ∨
  ∃ j c r,
    after !! j = Some c ∧ head_of c = Some r ∧
    (∃ c0, observed arrivals cs j = Some c0 ∧ head_of c0 = Some r) ∧
    (∀ k c' r', k < length cs → observed arrivals cs k = Some c' →
                head_of c' = Some r' → (timestamp r <= timestamp r')%Z) ∧
    (∀ k c' r', cs !! k = Some c' → head_of c' = Some r' →
                (timestamp r <= timestamp r')%Z) ∧
    _process_record_racing arrivals cs =
      (true, alter pop_front j after,
       [mkDispatched j (Some (thread_id c)) r]).
Proof.
  intros after.
  destruct (scan_racing_prefix arrivals cs (length cs) (le_n _)) as [Hst Hinv].
  pose proof (observed_inv_prefix arrivals cs (length cs) (le_n _))
    as [Hle Hsel].
  cbv zeta in Hst, Hinv.
  fold (scan_racing arrivals cs) in Hst, Hinv, Hle, Hsel.
  unfold _process_record_racing.
  destruct (scan_racing arrivals cs) as [now s]. cbn [fst snd] in *.
  apply (racing_inv_pushes _ _ _ _ (arrivals (length cs))) in Hinv.
  assert (push_all (arrivals (length cs)) now = after) as Hafter.
  { unfold after. by rewrite arrived_S, push_all_app, Hst. }
  rewrite Hafter in *. unfold racing_inv in Hinv.
  destruct (desired_record_handle s) as [|j r]; [by left|]. right.
  destruct Hinv as (c & Hc & Hr & _ & Htid & _ & Hstart).
  destruct Hsel as (Hj & Hmin & c0 & Hc0 & Hr0).
  exists j, c, r. rewrite Htid. simpl. repeat split; try done.
  - by exists c0.
  - intros k c' r' Hk Hc' Hr'. rewrite <- Hmin. by apply (Hle k c' r').
  - intros k c' r' Hc' Hr'.
    apply (Hstart k c' r'); [by eapply lookup_lt_Some|done..].
Qed.

Lemma process_record_racing_quiet arrivals cs :
  (∀ k, arrivals k = []) →
  _process_record_racing arrivals cs = _process_record cs.
Proof.
  intros Hquiet.
  unfold _process_record_racing, _process_record, scan_racing, scan.
  assert (∀ l st, foldl (λ st i, scan_lane (push_all (arrivals i) st.1, st.2) i)
                    st l
                  = foldl scan_lane st l) as Hsame.
  { induction l as [|i l IHl]; intros [now s]; [done|]. simpl.
    rewrite Hquiet. apply IHl. }
  rewrite Hsame, Hquiet. by destruct (foldl scan_lane _ _) as [now s].
Qed.

Lemma schedule_quiet n k : schedule [] n k = [].
Proof. unfold schedule. case_decide; [done|]. by rewrite drop_nil. Qed.

Lemma worker_step_racing_quiet w : worker_step_racing [] w = worker_step w.
Proof.
  assert (process_racing [] w = process w) as Hp.
  { unfold process_racing, process.
    by rewrite process_record_racing_quiet by apply schedule_quiet. }
  assert (∀ w', land [] w' = w') as Hl by (by intros []).
  unfold worker_step_racing, worker_step, _main_loop. rewrite Hp.
  destruct (_backend_worker_thread w) as [|[]]; rewrite ?Hl; try done.
  by destruct (is_running w).
Qed.

Lemma exec_racing_between evs :
  ∀ w, exec_racing w (Between <$> evs) = exec w evs.
Proof. induction evs as [|e evs IH]; intros w; [done|]. simpl. apply IH. Qed.


(** ** Order of dispatch *)

Lemma lane_queue_alter f cs i k :
  lane_queue (alter f i cs) k =
    if decide (i = k) then from_option (λ c, spsc_queue (f c)) [] (cs !! k)
    else lane_queue cs k.
Proof.
  unfold lane_queue. case_decide as Hk.
  - subst k. rewrite list_lookup_alter_eq. by destruct (cs !! i).
  - by rewrite list_lookup_alter_ne.
Qed.

Lemma lane_queue_pop cs j k :
  lane_queue (alter pop_front j cs) k =
    if decide (j = k) then tail (lane_queue cs k) else lane_queue cs k.
Proof.
  rewrite lane_queue_alter. case_decide; [|done].
  unfold lane_queue. by destruct (cs !! k).
Qed.

Lemma lane_queue_register cs tid k :
  lane_queue (cs ++ [mkContext tid []]) k = lane_queue cs k.
Proof.
  unfold lane_queue. destruct (decide (k < length cs)) as [Hlt|Hge].
  - by rewrite lookup_app_l.
  - rewrite lookup_app_r by lia. rewrite (lookup_ge_None_2 cs k) by lia.
    by destruct (k - length cs) as [|[|?]].
Qed.

Lemma lane_queue_head cs j c r :
  cs !! j = Some c → head_of c = Some r →
  lane_queue cs j = r :: tail (lane_queue cs j).
Proof.
  unfold lane_queue, head_of. intros -> Hhd. simpl.
  destruct (spsc_queue c); [done|]. by injection Hhd as ->.
Qed.

Lemma dispatched_timestamps_commit w w' j tid r :
  _handler_collection w' = _handler_collection w ++ [mkDispatched j tid r] →
  dispatched_timestamps w' = dispatched_timestamps w ++ [timestamp r].
Proof. unfold dispatched_timestamps. intros ->. by rewrite fmap_app. Qed.

Lemma elem_of_tail {A} (x : A) (l : list A) : x ∈ tail l → x ∈ l.
Proof. destruct l; [done|]. simpl. by right. Qed.

Lemma ordered_with_ext fut fut' w :
  (∀ i, fut i = fut' i) → ordered_with fut w → ordered_with fut' w.
Proof.
  intros Hext (Hlogs & Hlanes & Hbound). split; [done|split; [|done]].
  intros i. rewrite <- Hext. apply Hlanes.
Qed.

Lemma ordered_with_same fut w w' :
  _thread_context_collection w' = _thread_context_collection w →
  _handler_collection w' = _handler_collection w →
  ordered_with fut w → ordered_with fut w'.
Proof.
  intros Hcs Hlog. unfold ordered_with, dispatched_timestamps.
  by rewrite Hcs, Hlog.
Qed.

Lemma ordered_with_push fut w k r0 :
  Forall (λ t, (t <= timestamp r0)%Z) (dispatched_timestamps w) →
  ordered_with (λ i, pushed_onto i [(k, r0)] ++ fut i) w →
  ordered_with fut (land [(k, r0)] w).
Proof.
  intros Htimely (Hlogs & Hlanes & Hbound). unfold ordered_with. simpl.
  split; [done|split].
  - intros i. specialize (Hlanes i). simpl in Hlanes.
    rewrite lane_queue_alter.
    destruct (decide (k = i)) as [->|Hne]; [|done].
    unfold lane_queue in Hlanes.
    destruct (_thread_context_collection w !! i) as [c|]; simpl in *.
    + by rewrite fmap_app, <- app_assoc.
    + by apply StronglySorted_cons in Hlanes as [_ ?].
  - intros t i r' Ht Hr'. rewrite lane_queue_alter in Hr'.
    destruct (decide (k = i)) as [->|Hne]; [|by apply (Hbound t i r')].
    destruct (_thread_context_collection w !! i) as [c|] eqn:Hc;
      simpl in Hr'; [|by apply elem_of_nil in Hr'].
    apply elem_of_app in Hr' as [Hr'|Hr'%list_elem_of_singleton].
    + apply (Hbound t i r'); [done|]. unfold lane_queue. by rewrite Hc.
    + subst r'. rewrite Forall_forall in Htimely. by apply Htimely.
Qed.

Lemma ordered_with_land ps :
  ∀ fut w,
    Forall (λ p, Forall (λ t, (t <= timestamp p.2)%Z)
                   (dispatched_timestamps w)) ps →
    ordered_with (λ i, pushed_onto i ps ++ fut i) w →
    ordered_with fut (land ps w).
Proof.
  induction ps as [|[k r0] ps IH]; intros fut w Htimely Hord.
  - by apply (ordered_with_same _ w).
  - apply Forall_cons in Htimely as [Hnow Hlater].
    change (land ((k, r0) :: ps) w) with (land ps (land [(k, r0)] w)).
    apply IH; [done|]. apply ordered_with_push; [done|].
    revert Hord. apply ordered_with_ext. intros i. simpl.
    by destruct (decide (k = i)).
Qed.

Lemma ordered_with_commit fut w w' j c r tid :
  ordered_with fut w →
  _thread_context_collection w !! j = Some c → head_of c = Some r →
  (∀ k r', r' ∈ lane_queue (_thread_context_collection w) k →
           (timestamp r <= timestamp r')%Z) →
  _thread_context_collection w' =
    alter pop_front j (_thread_context_collection w) →
  _handler_collection w' = _handler_collection w ++ [mkDispatched j tid r] →
  ordered_with fut w'.
Proof.
  intros (Hlogs & Hlanes & Hbound) Hc Hr Hleast Hcs Hlog.
  pose proof (lane_queue_head _ _ _ _ Hc Hr) as Hq.
  assert (r ∈ lane_queue (_thread_context_collection w) j) as Hrin.
  { rewrite Hq. left. }
  unfold ordered_with.
  rewrite (dispatched_timestamps_commit _ _ _ _ _ Hlog), Hcs.
  split; [|split].
  - apply StronglySorted_app_2; [|done|repeat constructor].
    intros t1 t2 Ht1 Ht2%list_elem_of_singleton. subst t2.
    by apply (Hbound t1 j r).
  - intros i. rewrite lane_queue_pop. case_decide as Hi; [|apply Hlanes].
    subst i. specialize (Hlanes j). rewrite Hq in Hlanes.
    rewrite fmap_cons in Hlanes. simpl in Hlanes.
    by apply StronglySorted_cons in Hlanes as [_ ?].
  - intros t i r' Ht Hr'.
    assert (r' ∈ lane_queue (_thread_context_collection w) i) as Hold.
    { rewrite lane_queue_pop in Hr'. case_decide; [|done].
      by apply elem_of_tail. }
    apply elem_of_app in Ht as [Ht|Ht%list_elem_of_singleton].
    + by apply (Hbound t i r').
    + subst t. by apply (Hleast i).
Qed.

Lemma least_head_least (cs : list ThreadContext) r k r' :
  (∀ k c' r', cs !! k = Some c' → head_of c' = Some r' →
              (timestamp r <= timestamp r')%Z) →
  (∀ i, StronglySorted Z.lt (timestamp <$> lane_queue cs i)) →
  r' ∈ lane_queue cs k → (timestamp r <= timestamp r')%Z.
Proof.
  intros Hle Hsorted Hin. unfold lane_queue in Hin, Hsorted.
  destruct (cs !! k) as [c'|] eqn:Hc'; simpl in Hin;
    [|by apply elem_of_nil in Hin].
  specialize (Hsorted k). rewrite Hc' in Hsorted. simpl in Hsorted.
  destruct (spsc_queue c') as [|r0 q] eqn:Hq; [by apply elem_of_nil in Hin|].
  assert (timestamp r <= timestamp r0)%Z as H0.
  { apply (Hle k c' r0); [done|]. unfold head_of. by rewrite Hq. }
  apply elem_of_cons in Hin as [->|Hin]; [done|].
  rewrite fmap_cons in Hsorted. apply StronglySorted_cons in Hsorted as [Hall _].
  rewrite Forall_forall in Hall.
  assert (timestamp r' ∈ timestamp <$> q) as Hin'.
  { apply list_elem_of_fmap. by exists r'. }
  specialize (Hall _ Hin'). lia.
Qed.

Lemma ordered_with_engine fut w w' :
  engine_effect w w' → ordered_with fut w → ordered_with fut w'.
Proof.
  intros [Hcs Hlog|j c r Hfm Hcs Hlog] Hord.
  - by apply (ordered_with_same _ w).
  - pose proof Hfm as (_ & Hc & Hr & _ & Hle & _).
    apply (ordered_with_commit fut w w' j c r (Some (thread_id c)));
      try done.
    intros k r' Hr'.
    apply (least_head_least (_thread_context_collection w) r k r');
      [|intros i; eapply StronglySorted_app_1_l, Hord|done].
    intros k' c' r'' Hc' Hr''. apply (Hle k' c' r''); [|done..].
    by eapply lookup_lt_Some.
Qed.

Lemma ordered_with_register fut w tid :
  ordered_with fut w → ordered_with fut (apply_event w (Register tid)).
Proof.
  intros (Hlogs & Hlanes & Hbound). unfold ordered_with. simpl.
  split; [done|split].
  - intros k. rewrite lane_queue_register. apply Hlanes.
  - intros t k r' Ht Hr'. rewrite lane_queue_register in Hr'.
    by apply (Hbound t k r').
Qed.

Lemma elem_of_lane_queue_push_all ps :
  ∀ (cs : list ThreadContext) k r',
    r' ∈ lane_queue (push_all ps cs) k →
    r' ∈ lane_queue cs k ∨ r' ∈ ps.*2.
Proof.
  induction ps as [|[i r0] ps IH]; intros cs k r' Hin; [by left|].
  simpl in Hin. apply IH in Hin as [Hin|Hin]; [|right; by right].
  rewrite lane_queue_alter in Hin.
  destruct (decide (i = k)) as [->|Hne]; [|by left].
  unfold lane_queue. destruct (cs !! k) as [c|]; simpl in *; [|by left].
  apply elem_of_app in Hin as [Hin|Hin%list_elem_of_singleton]; [by left|].
  subst r'. right. left.
Qed.

(** What a step of the worker thread does to the lanes and to the
    handlers while producers push: every push lands, and at most one
    record, the head of a lane and no younger than any head that was there
    when the step began, is removed and handed over. *)
Lemma worker_step_racing_outcome landing w :
  let after := push_all (concat landing) (_thread_context_collection w) in
  let w' := worker_step_racing landing w in
  (_thread_context_collection w' = after ∧
   _handler_collection w' = _handler_collection w) ∨
  ∃ j c r,
    after !! j = Some c ∧ head_of c = Some r ∧
    (∀ k c' r', _thread_context_collection w !! k = Some c' →
                head_of c' = Some r' → (timestamp r <= timestamp r')%Z) ∧
    _thread_context_collection w' = alter pop_front j after ∧
    _handler_collection w' =
      _handler_collection w ++ [mkDispatched j (Some (thread_id c)) r].
Proof.
  intros after w'.
  assert (let pw := process_racing landing w in
          (_thread_context_collection pw.2 = after ∧
           _handler_collection pw.2 = _handler_collection w) ∨
          ∃ j c r,
            after !! j = Some c ∧ head_of c = Some r ∧
            (∀ k c' r', _thread_context_collection w !! k = Some c' →
                        head_of c' = Some r' →
                        (timestamp r <= timestamp r')%Z) ∧
            _thread_context_collection pw.2 = alter pop_front j after ∧
            _handler_collection pw.2 =
              _handler_collection w ++ [mkDispatched j (Some (thread_id c)) r])
    as Hp.
  { unfold process_racing.
    destruct (process_record_racing_outcome
                (schedule landing (length (_thread_context_collection w)))
                (_thread_context_collection w))
      as [E|(j & c & r & Hc & Hr & _ & _ & Hle & E)];
      rewrite arrived_schedule in *; fold after in E |- *; rewrite E; simpl.
    - left. by rewrite app_nil_r.
    - right. by exists j, c, r. }
  assert (∀ w0, _thread_context_collection w0 = _thread_context_collection w →
                _handler_collection w0 = _handler_collection w →
                _thread_context_collection (land (concat landing) w0) = after ∧
                _handler_collection (land (concat landing) w0)
                  = _handler_collection w) as Hland.
  { intros w0 Hcs Hlog. simpl. by rewrite Hcs. }
  cbv zeta in Hp. unfold w', worker_step_racing.
  destruct (_backend_worker_thread w) as [|[]] eqn:Ht.
  - left. apply Hland; unfold worker_step; by rewrite Ht.
  - left. apply Hland; unfold worker_step; rewrite Ht;
      by destruct (on_start _ _).
  - destruct (is_running w) eqn:Hrun.
    + destruct (process_racing landing w) as [[] w1]; simpl in *; done.
    + left. apply Hland; unfold worker_step; by rewrite Ht, Hrun.
  - destruct (process_racing landing w) as [[] w1]; simpl in *; done.
  - left. apply Hland; unfold worker_step; by rewrite Ht.
  - left. apply Hland; unfold worker_step; by rewrite Ht.
Qed.

Lemma ordered_racing_event w e evs :
  never_overtaken w (e :: evs) →
  ordered_with (λ i, pushes_to_racing i (e :: evs)) w →
  ordered_with (λ i, pushes_to_racing i evs) (apply_racing w e).
Proof.
  intros [Hnow _] Hord. destruct e as [e|landing].
  - pose proof (apply_event_engine_effect w e) as Heng.
    destruct e as [i r|tid| | | |];
      [|by apply ordered_with_register|by apply (ordered_with_engine _ w)..].
    apply (ordered_with_push _ w i r); [|done].
    by apply Forall_cons in Hnow as [? _].
  - simpl in Hnow. cbn [apply_racing].
    assert (ordered_with (λ i, pushes_to_racing i evs)
              (land (concat landing) w)) as Hlanded.
    { apply ordered_with_land; [|done].
      destruct (worker_step_racing_outcome landing w)
        as [[_ Hlog]|(j & c & r & _ & _ & _ & _ & Hlog)];
        unfold dispatched_timestamps in *; rewrite Hlog in Hnow; [done|].
      eapply Forall_impl; [exact Hnow|]. intros p Hp. simpl in Hp.
      rewrite fmap_app in Hp. by apply Forall_app in Hp as [? _]. }
    destruct (worker_step_racing_outcome landing w)
      as [[Hcs Hlog]|(j & c & r & Hc & Hr & Hle & Hcs & Hlog)].
    + by apply (ordered_with_same _ (land (concat landing) w)).
    + apply (ordered_with_commit _ (land (concat landing) w) _ j c r
               (Some (thread_id c))); try done.
      intros k r' Hr'. simpl in Hr'.
      apply elem_of_lane_queue_push_all in Hr' as [Hr'|Hr'].
      * apply (least_head_least (_thread_context_collection w) r k r');
          [done| |done].
        intros i. eapply StronglySorted_app_1_l, Hord.
      * apply list_elem_of_fmap in Hr' as (p & -> & Hp).
        rewrite Forall_forall in Hnow. specialize (Hnow p Hp).
        rewrite Forall_forall in Hnow. apply Hnow.
        unfold dispatched_timestamps. rewrite Hlog, fmap_app.
        apply elem_of_app. right. left.
Qed.

Lemma ordered_racing_exec evs :
  ∀ w, never_overtaken w evs →
       ordered_with (λ i, pushes_to_racing i evs) w →
       StronglySorted Z.le (dispatched_timestamps (exec_racing w evs)).
Proof.
  induction evs as [|e evs IH]; intros w Htimely Hord; simpl.
  - apply Hord.
  - apply IH; [apply Htimely|by apply ordered_racing_event].
Qed.

Lemma ordered_racing_fresh w evs :
  (∀ c, c ∈ _thread_context_collection w → spsc_queue c = []) →
  _handler_collection w = [] →
  producer_order_racing evs →
  ordered_with (λ i, pushes_to_racing i evs) w.
Proof.
  intros Hempty Hlog Hprod.
  assert (∀ i, lane_queue (_thread_context_collection w) i = []) as Hq.
  { intros i. unfold lane_queue.
    destruct (_thread_context_collection w !! i) as [c|] eqn:Hc; [|done].
    simpl. apply Hempty. by eapply list_elem_of_lookup_2. }
  unfold ordered_with, dispatched_timestamps. rewrite Hlog.
  split; [constructor|split].
  - intros i. rewrite Hq. apply Hprod.
  - intros t i r Ht. by apply elem_of_nil in Ht.
Qed.


(** ** Equal timestamps *)

Lemma effects_extend w w' :
  rtc effect w w' →
  ∃ new, _handler_collection w' = _handler_collection w ++ new.
Proof. intros H. destruct (effects_below_max _ _ H) as (new & E & _). eauto. Qed.

Lemma first_minimum_not_after cs n i j c a b :
  first_minimum cs n j c b → i < j →
  (∃ c', cs !! i = Some c' ∧ head_of c' = Some a) →
  timestamp a = timestamp b → False.
Proof.
  intros (_ & _ & _ & _ & _ & Hlt) Hij (c' & Hc' & Ha) Hts.
  specialize (Hlt i c' a Hij Hc' Ha). lia.
Qed.

(** While [a] heads lane [i] and [b], of the same timestamp, heads the
    later lane [j], neither lane commits anything before [a] is
    dispatched. *)
Lemma effects_tie w w' i j a b :
  rtc effect w w' → i < j → timestamp a = timestamp b →
  lane_head w i a → lane_head w j b →
  ∃ new, _handler_collection w' = _handler_collection w ++ new ∧
    ((Forall (not_from i) new ∧ Forall (not_from j) new) ∨
     (∃ l0 tid l0', new = l0 ++ mkDispatched i tid a :: l0' ∧
                    Forall (not_from i) l0 ∧ Forall (not_from j) l0)).
Proof.
  intros Hrtc Hij Hts.
  induction Hrtc as [w|w w1 w' Hstep Hrest IH]; intros Ha Hb.
  - exists []. rewrite app_nil_r. split; [done|]. left. by split.
  - destruct (effect_lane_head _ _ i a Hstep Ha)
      as [(Ha1 & new1 & E1 & Hi1)|(c & Hfm & _ & E1)].
    + destruct (effect_lane_head _ _ j b Hstep Hb)
        as [(Hb1 & new1' & E1' & Hj1)|(c & Hfm & _)].
      * assert (new1' = new1) as ->.
        { rewrite E1 in E1'. by apply app_inv_head in E1'. }
        destruct (IH Ha1 Hb1) as (new2 & E2 & Hcases).
        exists (new1 ++ new2). rewrite E2, E1, app_assoc. split; [done|].
        destruct Hcases as [[Hi2 Hj2]|(l0 & tid & l0' & -> & Hi2 & Hj2)].
        -- left. split; by apply Forall_app.
        -- right. exists (new1 ++ l0), tid, l0'.
           rewrite app_assoc. split; [done|]. split; by apply Forall_app.
      * exfalso. by eapply (first_minimum_not_after _ _ i j c a b).
    + destruct (effects_extend _ _ Hrest) as (new2 & E2).
      exists (mkDispatched i (Some (thread_id c)) a :: new2).
      rewrite E2, E1, <- app_assoc. split; [done|].
      right. by exists [], (Some (thread_id c)), new2.
Qed.

(** The first record that lane [k] dispatches is the one at its head. *)
Lemma effects_first_from w w' k r :
  rtc effect w w' → lane_head w k r →
  ∃ new, _handler_collection w' = _handler_collection w ++ new ∧
    ∀ l1 d l2, new = l1 ++ d :: l2 → source_lane d = k →
               Forall (not_from k) l1 → record d = r.
Proof.
  induction 1 as [w|w w1 w' Hstep Hrest IH]; intros Hhd.
  - exists []. rewrite app_nil_r. split; [done|].
    intros l1 d l2 Hnil. by destruct l1.
  - destruct (effect_lane_head _ _ k r Hstep Hhd)
      as [(Hhd1 & new1 & E1 & Hk1)|(c & Hfm & _ & E1)].
    + destruct (IH Hhd1) as (new2 & E2 & Hfirst).
      exists (new1 ++ new2). rewrite E2, E1, app_assoc. split; [done|].
      intros l1 d l2 Hsplit Hd Hl1.
      apply app_eq_inv in Hsplit as [(m & -> & Hm)|(m & -> & ->)].
      * destruct m as [|d0 m]; simpl in Hm.
        -- subst new2. by apply (Hfirst [] d l2).
        -- injection Hm as <- _. exfalso.
           apply Forall_app in Hk1 as [_ Hk1].
           apply Forall_cons in Hk1 as [Hk1 _]. by apply Hk1.
      * apply (Hfirst m d l2); [done..|].
        apply Forall_app in Hl1. apply Hl1.
    + destruct (effects_extend _ _ Hrest) as (new2 & E2).
      exists (mkDispatched k (Some (thread_id c)) r :: new2).
      rewrite E2, E1, <- app_assoc. split; [done|].
      intros l1 d l2 Hsplit Hd Hl1. destruct l1 as [|d0 l1]; simpl in Hsplit.
      * by injection Hsplit as <- _.
      * injection Hsplit as <- _. exfalso.
        apply Forall_cons in Hl1 as [Hl1 _]. by apply Hl1.
Qed.

Lemma split_after_first {A} (l0 l0' l1 l2 : list A) (x d : A) (P : A → Prop) :
  l0 ++ x :: l0' = l1 ++ d :: l2 → Forall P l0 → ¬ P d → x ≠ d →
  ∃ m, l1 = l0 ++ x :: m.
Proof.
  intros Hsplit Hl0 Hd Hx.
  apply app_eq_inv in Hsplit as [(m & -> & Hm)|(m & -> & Hm)].
  - destruct m as [|d0 m]; simpl in Hm.
    + injection Hm as <- _. by destruct Hx.
    + injection Hm as <- _. exfalso. apply Hd.
      apply Forall_app in Hl0 as [_ Hl0]. by apply Forall_cons in Hl0 as [? _].
  - destruct m as [|x0 m]; simpl in Hm.
    + injection Hm as -> _. by destruct Hx.
    + injection Hm as <- _. by exists m.
Qed.

(** ** Termination of the drain loop and of [stop] *)

Lemma pending_pop cs j c r :
  cs !! j = Some c → head_of c = Some r →
  pending cs = S (pending (alter pop_front j cs)).
Proof.
  unfold pending, head_of. revert j.
  induction cs as [|c0 cs IH]; intros [|j] Hc Hr; simplify_eq/=.
  - destruct (spsc_queue c); by simplify_eq/=.
  - rewrite (IH j); [lia|done..].
Qed.

Lemma process_pending w :
  match process w with
  | (true, w1) =>
      pending (_thread_context_collection w) =
        S (pending (_thread_context_collection w1))
  | (false, w1) => w1 = w
  end.
Proof.
  destruct (process_spec w) as [_|j c r (_ & Hc & Hr & _)]; [done|].
  simpl. by eapply pending_pop.
Qed.

Lemma exit_total n :
  ∀ w, pending (_thread_context_collection w) ≤ n →
       ∃ w', _exit (S n) w = Some w'.
Proof.
  induction n as [|n IH]; intros w Hn; simpl;
    pose proof (process_pending w) as Hp;
    destruct (process w) as [[] w1]; eauto; [lia|].
  apply IH. lia.
Qed.

(** The fields that the worker thread and the producers never write. *)
Lemma process_fields w :
  let w1 := (process w).2 in
  host w1 = host w ∧ _config w1 = _config w ∧
  _is_running w1 = _is_running w ∧
  _start_init_once_flag w1 = _start_init_once_flag w ∧
  _backend_thread_sleep_duration w1 = _backend_thread_sleep_duration w ∧
  _backend_worker_thread w1 = _backend_worker_thread w ∧
  slept w1 = slept w.
Proof.
  unfold process. by destruct (_process_record _) as [[b cs] out].
Qed.

Lemma worker_step_fields w :
  host (worker_step w) = host w ∧ _config (worker_step w) = _config w ∧
  _is_running (worker_step w) = _is_running w ∧
  _start_init_once_flag (worker_step w) = _start_init_once_flag w.
Proof.
  unfold worker_step, _main_loop.
  pose proof (process_fields w) as (? & ? & ? & ? & _).
  destruct (_backend_worker_thread w) as [|[]]; try done.
  - by destruct (on_start _ _).
  - destruct (is_running w); [|done]. by destruct (process w) as [[] w1].
  - by destruct (process w) as [[] w1].
Qed.

Lemma join_steps fuel :
  ∀ w w', join fuel w = Some w' →
    ∃ k, _backend_worker_thread (exec w (replicate k WorkerStep))
           = Thread Finished ∧
         w' = set_thread NotAThread (exec w (replicate k WorkerStep)).
Proof.
  induction fuel as [|fuel IH]; intros w w'; simpl;
    destruct (_backend_worker_thread w) as [|[]] eqn:Ht; try done;
    try (intros [= <-]; by exists 0);
    intros (k & Hk & ->)%IH; by exists (S k).
Qed.

Lemma worker_step_on_exit w :
  _backend_worker_thread w = Thread OnExit →
  worker_step w = set_thread (Thread Finished) w ∨
  (_backend_worker_thread (worker_step w) = Thread OnExit ∧
   pending (_thread_context_collection w) =
     S (pending (_thread_context_collection (worker_step w)))).
Proof.
  intros Ht. unfold worker_step. rewrite Ht.
  pose proof (process_pending w) as Hp.
  pose proof (process_fields w) as (_ & _ & _ & _ & _ & Ht1 & _).
  destruct (process w) as [[] w1]; simpl in *.
  - right. split; [congruence|done].
  - left. by subst w1.
Qed.

Lemma join_finished fuel w :
  _backend_worker_thread w = Thread Finished →
  join fuel w = Some (set_thread NotAThread w).
Proof. intros Ht. destruct fuel; simpl; by rewrite Ht. Qed.

Lemma join_unfold fuel w :
  match _backend_worker_thread w with
  | Thread OnStart | Thread Running | Thread OnExit =>
      join (S fuel) w = join fuel (worker_step w)
  | _ => True
  end.
Proof. simpl. by destruct (_backend_worker_thread w) as [|[]]. Qed.

Lemma join_on_exit n :
  ∀ w, _backend_worker_thread w = Thread OnExit →
       pending (_thread_context_collection w) ≤ n →
       ∃ w', join (S n) w = Some w'.
Proof.
  induction n as [|n IH]; intros w Ht Hn.
  - pose proof (join_unfold 0 w) as H0. rewrite Ht in H0.
    destruct (worker_step_on_exit w Ht) as [Hfin|[Ht1 Hp]]; [|lia].
    rewrite H0, Hfin. eexists. by apply join_finished.
  - pose proof (join_unfold (S n) w) as HS. rewrite Ht in HS.
    destruct (worker_step_on_exit w Ht) as [Hfin|[Ht1 Hp]].
    + rewrite HS, Hfin. eexists. by apply join_finished.
    + rewrite HS. apply IH; [done|lia].
Qed.

Lemma join_terminates w :
  _is_running w = false → can_finish w →
  joinable (_backend_worker_thread w) = true →
  ∃ fuel w', join fuel w = Some w'.
Proof.
  intros Hrun Hcan Hj.
  assert (∀ w0, _backend_worker_thread w0 = Thread Running →
            _is_running w0 = false → ∃ fuel w', join fuel w0 = Some w')
    as Hloop.
  { intros w0 Ht Hr.
    destruct (join_on_exit (pending (_thread_context_collection w0))
                (set_thread (Thread OnExit) w0)) as [w' Hw']; [done..|].
    exists (S (S (pending (_thread_context_collection w0)))), w'.
    pose proof (join_unfold (S (pending (_thread_context_collection w0))) w0)
      as Hu.
    rewrite Ht in Hu. rewrite Hu, <- Hw'. unfold worker_step, is_running.
    by rewrite Ht, Hr. }
  unfold can_finish in Hcan.
  destruct (_backend_worker_thread w) as [|[]] eqn:Ht; try done.
  - destruct (Hloop (set_thread (Thread Running) w)) as (fuel & w' & Hw');
      [done..|].
    exists (S fuel), w'. pose proof (join_unfold fuel w) as Hu.
    rewrite Ht in Hu. rewrite Hu, <- Hw'. unfold worker_step.
    by rewrite Ht, Hcan.
  - by apply Hloop.
  - exists (S (pending (_thread_context_collection w))).
    by apply join_on_exit.
  - exists 0. eexists. by apply join_finished.
Qed.

Lemma join_mono fuel :
  ∀ fuel' w w', join fuel w = Some w' → fuel ≤ fuel' →
                join fuel' w = Some w'.
Proof.
  induction fuel as [|fuel IH]; intros fuel' w w' Hj Hle.
  - simpl in Hj. destruct (_backend_worker_thread w) as [|[]] eqn:Ht;
      try done. rewrite <- Hj. by apply join_finished.
  - destruct fuel' as [|fuel']; [lia|]. simpl in *.
    destruct (_backend_worker_thread w) as [|[]] eqn:Ht; try done;
      apply IH; (done || lia).
Qed.

(** ** Fields that events preserve *)

Lemma apply_event_fields w e :
  host (apply_event w e) = host w ∧ _config (apply_event w e) = _config w.
Proof.
  destruct e as [i r|tid| | | |]; simpl; try done.
  - unfold run. by destruct (_start_init_once_flag w).
  - by destruct (_backend_worker_thread w) as [|[]].
  - pose proof (worker_step_fields w) as (? & ? & _). done.
Qed.

Lemma apply_event_once_flag w e :
  _start_init_once_flag w = true →
  _start_init_once_flag (apply_event w e) = true.
Proof.
  intros Hf. destruct e as [i r|tid| | | |]; simpl; try done.
  - unfold run. by rewrite Hf.
  - by destruct (_backend_worker_thread w) as [|[]].
  - pose proof (worker_step_fields w) as (_ & _ & _ & ->). done.
Qed.

Lemma exec_once_flag evs :
  ∀ w, _start_init_once_flag w = true →
       _start_init_once_flag (exec w evs) = true.
Proof.
  induction evs as [|e evs IH]; intros w Hf; [done|].
  simpl. by apply IH, apply_event_once_flag.
Qed.

Lemma exec_worker_steps_fields k :
  ∀ w, _is_running (exec w (replicate k WorkerStep)) = _is_running w ∧
       _start_init_once_flag (exec w (replicate k WorkerStep))
         = _start_init_once_flag w.
Proof.
  induction k as [|k IH]; intros w; [done|]. simpl.
  destruct (IH (worker_step w)) as [-> ->].
  pose proof (worker_step_fields w) as (_ & _ & -> & ->). done.
Qed.

(** ** [stop] *)

Lemma stop_joinable fuel w w' :
  joinable (_backend_worker_thread w) = true → stop fuel w = Some w' →
  ∃ k, _backend_worker_thread
         (exec (set_running false w) (replicate k WorkerStep))
         = Thread Finished ∧
       w' = set_thread NotAThread
              (exec (set_running false w) (replicate k WorkerStep)).
Proof.
  unfold stop. simpl. intros ->. apply join_steps.
Qed.

Lemma stop_result fuel w w' :
  stop fuel w = Some w' →
  _is_running w' = false ∧ _backend_worker_thread w' = NotAThread ∧
  _start_init_once_flag w' = _start_init_once_flag w.
Proof.
  destruct (joinable (_backend_worker_thread w)) eqn:Hj.
  - intros (k & _ & ->)%stop_joinable; [|done]. simpl.
    by destruct (exec_worker_steps_fields k (set_running false w)) as [-> ->].
  - unfold stop. simpl. rewrite Hj. intros [= <-]. simpl.
    by destruct (_backend_worker_thread w).
Qed.

Lemma stop_not_running fuel w :
  _backend_worker_thread w = NotAThread → _is_running w = false →
  stop fuel w = Some w.
Proof.
  intros Ht Hr. unfold stop. simpl. rewrite Ht. simpl.
  destruct w; simpl in *. by subst.
Qed.

Lemma stop_terminates w : can_finish w → ∃ fuel w', stop fuel w = Some w'.
Proof.
  intros Hcan. unfold stop.
  destruct (joinable (_backend_worker_thread (set_running false w))) eqn:Hj.
  - by apply join_terminates.
  - by exists 0, (set_running false w).
Qed.

Lemma stop_deterministic fuel1 fuel2 w w1 w2 :
  stop fuel1 w = Some w1 → stop fuel2 w = Some w2 → w1 = w2.
Proof.
  unfold stop. destruct (joinable _); [|congruence].
  intros H1 H2.
  apply (join_mono _ (fuel1 `max` fuel2)) in H1; [|lia].
  apply (join_mono _ (fuel1 `max` fuel2)) in H2; [|lia]. congruence.
Qed.

(** ** Calls of [stop] that overlap *)

Lemma exec_calls_others cl evs :
  ∀ w, exec_calls (cl, w) (Other <$> evs) = (cl, exec w evs).
Proof. induction evs as [|e evs IH]; intros w; [done|]. simpl. apply IH. Qed.

Lemma exec_calls_app st evs1 evs2 :
  exec_calls st (evs1 ++ evs2) = exec_calls (exec_calls st evs1) evs2.
Proof. apply foldl_app. Qed.

(** A call of [stop] that no other call overlaps is [stop]. *)
Lemma stop_as_one_caller fuel w w' :
  stop fuel w = Some w' →
  ∃ k, exec_calls ([AtStore], w) (one_stop k) = ([Returned], w').
Proof.
  intros Hstop. destruct (joinable (_backend_worker_thread w)) eqn:Hj.
  - destruct (stop_joinable fuel w w' Hj Hstop) as (k & Hfin & ->).
    exists k. unfold one_stop. rewrite !exec_calls_app. simpl.
    rewrite Hj. simpl. rewrite exec_calls_others. simpl. by rewrite Hfin.
  - exists 0. unfold stop in Hstop. simpl in *. rewrite Hj in *.
    by injection Hstop as <-.
Qed.

Lemma terminated_for_good evs :
  ∀ st k, st.1 !! k = Some Terminated →
          (exec_calls st evs).1 !! k = Some Terminated.
Proof.
  induction evs as [|ev evs IH]; intros [cl w] k Hk; [done|].
  simpl. apply IH. destruct ev as [k'|e]; [|done]. simpl in *.
  destruct (cl !! k') as [pc|] eqn:Hpc; [|done].
  destruct (decide (k' = k)) as [->|Hne].
  - assert (pc = Terminated) as -> by congruence. simpl.
    by rewrite list_insert_id.
  - destruct (stop_step pc w) as [pc' w']. simpl.
    by rewrite list_lookup_insert_ne.
Qed.


(** ** After [stop] has returned on a started worker *)

Lemma apply_event_stopped w e :
  stopped w →
  stopped (apply_event w e) ∧
  _handler_collection (apply_event w e) = _handler_collection w.
Proof.
  intros (Hf & Ht & Hr). unfold stopped.
  destruct e as [i r|tid| | | |]; simpl; try done.
  - unfold run. by rewrite Hf.
  - by rewrite Ht.
  - unfold worker_step. by rewrite Ht.
Qed.

Lemma exec_stopped evs :
  ∀ w, stopped w →
       stopped (exec w evs) ∧
       _handler_collection (exec w evs) = _handler_collection w.
Proof.
  induction evs as [|e evs IH]; intros w Hs; [done|]. simpl.
  destruct (apply_event_stopped w e Hs) as [Hs1 <-]. by apply IH.
Qed.

(** ** A worker thread that throws at start-up *)

Lemma apply_event_start_fails e w ev :
  start_fails e w →
  start_fails e (apply_event w ev) ∧
  _handler_collection (apply_event w ev) = _handler_collection w ∧
  slept (apply_event w ev) = slept w.
Proof.
  intros (Hf & Hs & Ht). unfold start_fails.
  pose proof (apply_event_fields w ev) as [-> ->].
  rewrite (apply_event_once_flag w ev Hf).
  destruct ev as [i r|tid| | | |]; simpl; try done.
  - unfold run. by rewrite Hf.
  - destruct Ht as [Ht|Ht]; rewrite Ht; auto.
  - unfold worker_step. destruct Ht as [Ht|Ht]; rewrite Ht; [|auto].
    rewrite Hs. simpl. auto.
Qed.

Lemma exec_start_fails e evs :
  ∀ w, start_fails e w →
       start_fails e (exec w evs) ∧
       _handler_collection (exec w evs) = _handler_collection w ∧
       slept (exec w evs) = slept w.
Proof.
  induction evs as [|ev evs IH]; intros w Hs; [done|]. simpl.
  destruct (apply_event_start_fails e w ev Hs) as (Hs1 & <- & <-).
  by apply IH.
Qed.

(** ** Supporting facts on the loops *)

Lemma main_loop_sleep w :
  slept (_main_loop w) =
    slept w ++ (if (process w).1 then []
                else [_backend_thread_sleep_duration w]).
Proof.
  unfold _main_loop.
  pose proof (process_fields w) as (_ & _ & _ & _ & Hd & _ & Hs).
  destruct (process w) as [[] w1]; simpl in *.
  - by rewrite app_nil_r.
  - by rewrite Hd, Hs.
Qed.

Lemma process_empty_lanes w :
  (∀ c, c ∈ _thread_context_collection w → spsc_queue c = []) →
  process w = (false, w).
Proof.
  intros Hempty.
  destruct (process_spec w) as [_|j c r (_ & Hc & Hr & _)]; [done|].
  apply list_elem_of_lookup_2, Hempty in Hc.
  unfold head_of in Hr. by rewrite Hc in Hr.
Qed.

(** ** What the drain loop dispatches *)

Lemma exit_engine fuel :
  ∀ w w', _exit fuel w = Some w' →
    rtc engine_effect w w' ∧
    nothing_below_max (_thread_context_collection w')
      (length (_thread_context_collection w')).
Proof.
  induction fuel as [|fuel IH]; intros w w'; [done|]. simpl.
  pose proof (process_engine_effect w) as Heff. revert Heff.
  destruct (process_spec w) as [Hidle|j c r Hfm]; simpl.
  - intros _ [= <-]. by split.
  - intros Heff Hx. destruct (IH _ _ Hx) as [Hrtc Hidle].
    split; [by eapply rtc_l|done].
Qed.

Lemma engine_effects_lanes w w' :
  rtc engine_effect w w' →
  ∃ new, _handler_collection w' = _handler_collection w ++ new ∧
    ∀ i, lane_queue (_thread_context_collection w) i =
           dispatched_from i new ++ lane_queue (_thread_context_collection w') i.
Proof.
  induction 1 as [w|w w1 w' Hstep _ (new2 & E2 & IH)].
  - exists []. by rewrite app_nil_r.
  - destruct Hstep as [Hcs Hlog|j c r Hfm Hcs Hlog].
    + exists new2. rewrite E2, Hlog. split; [done|].
      intros i. rewrite <- IH. by rewrite Hcs.
    + exists (mkDispatched j (Some (thread_id c)) r :: new2).
      rewrite E2, Hlog, <- app_assoc. split; [done|].
      intros i. specialize (IH i). rewrite Hcs, lane_queue_pop in IH.
      unfold dispatched_from in *.
      destruct (decide (j = i)) as [->|Hne].
      * rewrite filter_cons_True by done. rewrite fmap_cons. simpl.
        destruct Hfm as (_ & Hc & Hr & _).
        rewrite (lane_queue_head _ _ _ _ Hc Hr). by rewrite <- IH.
      * by rewrite filter_cons_False.
Qed.

Lemma nothing_below_max_empty cs :
  nothing_below_max cs (length cs) →
  (∀ i r, r ∈ lane_queue cs i → (timestamp r < UINT64_MAX)%Z) →
  ∀ i, lane_queue cs i = [].
Proof.
  intros Hidle Hbelow i. unfold lane_queue in *.
  specialize (Hbelow i). destruct (cs !! i) as [c|] eqn:Hc; [|done]. simpl in *.
  destruct (spsc_queue c) as [|r q] eqn:Hq; [done|].
  assert (UINT64_MAX <= timestamp r)%Z.
  { apply (Hidle i c r); [by eapply lookup_lt_Some|done|].
    unfold head_of. by rewrite Hq. }
  assert (timestamp r < UINT64_MAX)%Z by (apply Hbelow; left). lia.
Qed.

(** When every queued record is stamped below [2^64 - 1], the drain loop
    terminates with all lanes empty, and what it dispatched from each lane
    is that lane's queue, in order. *)
Lemma exit_dispatches_every_record w :
  (∀ i r, r ∈ lane_queue (_thread_context_collection w) i →
          (timestamp r < UINT64_MAX)%Z) →
  ∃ fuel w' new,
    _exit fuel w = Some w' ∧
    _handler_collection w' = _handler_collection w ++ new ∧
    (∀ i, lane_queue (_thread_context_collection w') i = []) ∧
    (∀ i, dispatched_from i new = lane_queue (_thread_context_collection w) i).
Proof.
  intros Hbelow.
  destruct (exit_total (pending (_thread_context_collection w)) w (le_n _))
    as [w' Hx].
  destruct (exit_engine _ _ _ Hx) as [Hrtc Hidle].
  destruct (engine_effects_lanes _ _ Hrtc) as (new & E & Hlanes).
  assert (∀ i, lane_queue (_thread_context_collection w') i = []) as Hempty.
  { apply nothing_below_max_empty; [done|]. intros i r Hr.
    apply (Hbelow i). rewrite Hlanes. apply elem_of_app. by right. }
  exists (S (pending (_thread_context_collection w))), w', new.
  repeat split; try done.
  intros i. by rewrite Hlanes, Hempty, app_nil_r.
Qed.


(** ** The scenario with three lanes *)

(** Lanes A = [5, 8], B = [6], C = []: the first three iterations of the
    running loop dispatch 5 from A, 6 from B and 8 from A; the fourth finds
    nothing and sleeps for the configured duration. *)
Example scenario_three_lanes :
  (let w := exec fresh_worker [CallRun; WorkerStep; WorkerStep] in
   dispatched_timestamps w = [5]%Z ∧
   lane_queue (_thread_context_collection w) 0 = [mkRecord 8 1]) ∧
  (let w := exec fresh_worker [CallRun; WorkerStep; WorkerStep; WorkerStep] in
   dispatched_timestamps w = [5; 6]%Z ∧
   lane_queue (_thread_context_collection w) 1 = []) ∧
  (let w := exec fresh_worker
              [CallRun; WorkerStep; WorkerStep; WorkerStep; WorkerStep] in
   dispatched_timestamps w = [5; 6; 8]%Z ∧
   lane_queue (_thread_context_collection w) 0 = [] ∧ slept w = []) ∧
  (let w := exec fresh_worker
              [CallRun; WorkerStep; WorkerStep; WorkerStep; WorkerStep;
               WorkerStep] in
   dispatched_timestamps w = [5; 6; 8]%Z ∧ slept w = [500]%Z).
Proof. by vm_compute. Qed.

(** * Properties stated by the specification *)

(** C3, at a snapshot whose only lane holds one record stamped
    [2^64 - 1]: the lane yields a valid handle, and the merge step commits
    nothing, dispatches nothing and reports that it processed nothing. *)
Theorem step_with_max_timestamp_commits_nothing :
  is_valid (try_pop 0 (mkContext "A" [mkRecord UINT64_MAX 0])) = true ∧
  uint64 (timestamp (mkRecord UINT64_MAX 0)) ∧
  _process_record max_lanes = (false, max_lanes, []).
Proof. repeat split; vm_compute; congruence. Qed.

(** C7, at a running worker whose only lane holds a record stamped
    [2^64 - 1]: the loop iteration dispatches nothing, leaves the record in
    its lane and sleeps for the configured duration. *)
Theorem main_loop_sleeps_with_record_pending :
  _backend_worker_thread max_running = Thread Running ∧
  _thread_context_collection max_running = max_lanes ∧
  slept max_running = [] ∧
  slept (_main_loop max_running) = [backend_thread_sleep_duration ex_config] ∧
  _handler_collection (_main_loop max_running) = [] ∧
  _thread_context_collection (_main_loop max_running) = max_lanes.
Proof. by vm_compute. Qed.

(** C4, at the same worker once the stop request is observed: the first
    drain step ends the drain loop and the thread, with the record still
    in its lane and nothing dispatched. *)
Theorem drain_ends_with_record_pending :
  _backend_worker_thread max_on_exit = Thread OnExit ∧
  _thread_context_collection max_on_exit = max_lanes ∧
  _exit 1 max_on_exit = Some max_on_exit ∧
  _backend_worker_thread (worker_step max_on_exit) = Thread Finished ∧
  _thread_context_collection (worker_step max_on_exit) = max_lanes ∧
  _handler_collection (worker_step max_on_exit) = [].
Proof. by vm_compute. Qed.

(** C2, at the same worker: [stop] returns, the thread is joined, and the
    record that was pushed before the stop request is still in its lane
    and was never dispatched. *)
Theorem stop_returns_with_record_undispatched :
  ∃ w, stop 2 max_running = Some w ∧
       _backend_worker_thread w = NotAThread ∧
       _thread_context_collection w = max_lanes ∧
       _handler_collection w = [].
Proof. eexists. by vm_compute. Qed.

(** C9: a record stamped [2^64 - 1] is never selected.  When it heads its
    lane, a merge step releases its handle and leaves the lane as it was;
    along every execution the record stays in its lane (at the head, once
    it is there, and then the lane dispatches nothing more) and every
    record that is dispatched has a smaller timestamp; the drain loop
    terminates with the record still in its lane. *)
Theorem max_timestamp_never_dispatched w i c r :
  _thread_context_collection w !! i = Some c →
  r ∈ spsc_queue c →
  timestamp r = UINT64_MAX →
  (head_of c = Some r →
   (_process_record (_thread_context_collection w)).1.2 !! i = Some c) ∧
  (∀ evs, ∃ new,
     _handler_collection (exec w evs) = _handler_collection w ++ new ∧
     Forall below_max new ∧
     lane_has (exec w evs) i r ∧
     (head_of c = Some r →
      lane_head (exec w evs) i r ∧ Forall (not_from i) new)) ∧
  (∃ fuel w' new,
     _exit fuel w = Some w' ∧
     _handler_collection w' = _handler_collection w ++ new ∧
     Forall below_max new ∧
     lane_has w' i r).
Proof.
  intros Hc Hin Hts.
  assert (lane_has w i r) as Hhas by by exists c.
  split; [|split].
  - intros Hhd.
    destruct (process_record_outcome (_thread_context_collection w))
      as [_ ->|j c0 r0 Hfm ->]; [done|]. simpl.
    destruct (decide (j = i)) as [->|Hne]; [|by rewrite list_lookup_alter_ne].
    destruct Hfm as (_ & Hc0 & Hr0 & Hlt & _).
    assert (r0 = r) as -> by congruence. lia.
  - intros evs. pose proof (exec_effects evs w) as Hrtc.
    destruct (effects_below_max _ _ Hrtc) as (new & E & Hnew).
    exists new. split; [done|]. split; [done|].
    split; [by eapply effects_lane_has_max|].
    intros Hhd.
    destruct (effects_lane_head_max _ _ i r Hrtc Hts) as (Hhd' & new' & E' & Hi);
      [by exists c|].
    split; [done|]. rewrite E in E'. by apply app_inv_head in E' as ->.
  - destruct (exit_total (pending (_thread_context_collection w)) w (le_n _))
      as [w' Hw'].
    pose proof (exit_effects _ _ _ Hw') as Hrtc.
    destruct (effects_below_max _ _ Hrtc) as (new & E & Hnew).
    exists (S (pending (_thread_context_collection w))), w', new.
    repeat split; try done. by eapply effects_lane_has_max.
Qed.

Lemma max_timestamp_never_dispatched_witness :
  _thread_context_collection max_running !! 0
    = Some (mkContext "A" [mkRecord UINT64_MAX 0]) ∧
  mkRecord UINT64_MAX 0 ∈ [mkRecord UINT64_MAX 0] ∧
  timestamp (mkRecord UINT64_MAX 0) = UINT64_MAX ∧
  ∃ fuel w' new,
    _exit fuel max_running = Some w' ∧
    _handler_collection w' = _handler_collection max_running ++ new ∧
    Forall below_max new ∧
    lane_has w' 0 (mkRecord UINT64_MAX 0).
Proof.
  assert (mkRecord UINT64_MAX 0 ∈ [mkRecord UINT64_MAX 0]) as Hin by left.
  split; [reflexivity|]. split; [exact Hin|]. split; [reflexivity|].
  apply (max_timestamp_never_dispatched max_running 0
           (mkContext "A" [mkRecord UINT64_MAX 0]) (mkRecord UINT64_MAX 0));
    [reflexivity|exact Hin|reflexivity].
Defined.

(** C6: two lanes hold records of equal timestamp at their heads.  A
    merge step leaves the later lane untouched.  When that timestamp is
    below [2^64 - 1] and no head is smaller, the merge step processes a
    record of that timestamp from a lane at or before the earlier one, and
    it is the earlier lane's head itself when no lane before it holds the
    same timestamp.  Along every execution each dispatch from the later
    lane comes after the dispatch of the earlier lane's head, which is the
    first dispatch from the earlier lane; the first dispatch from the
    later lane is its own head. *)
Theorem equal_timestamps_earlier_lane_first w i j a b :
  i < j →
  lane_head w i a →
  lane_head w j b →
  timestamp a = timestamp b →
  (_process_record (_thread_context_collection w)).1.2 !! j
    = _thread_context_collection w !! j ∧
  ((timestamp a < UINT64_MAX)%Z →
   (∀ k c r, _thread_context_collection w !! k = Some c →
             head_of c = Some r → (timestamp a <= timestamp r)%Z) →
   ∃ j' c r,
     j' ≤ i ∧ timestamp r = timestamp a ∧
     _thread_context_collection w !! j' = Some c ∧ head_of c = Some r ∧
     _process_record (_thread_context_collection w) =
       (true, alter pop_front j' (_thread_context_collection w),
        [mkDispatched j' (Some (thread_id c)) r]) ∧
     ((∀ k c' r', k < i → _thread_context_collection w !! k = Some c' →
                  head_of c' = Some r' → (timestamp a < timestamp r')%Z) →
      j' = i ∧ r = a)) ∧
  ∀ evs, ∃ new,
    _handler_collection (exec w evs) = _handler_collection w ++ new ∧
    ∀ l1 d l2, new = l1 ++ d :: l2 → source_lane d = j →
      (∃ l0 d' l0', l1 = l0 ++ d' :: l0' ∧ source_lane d' = i ∧
                    record d' = a ∧ Forall (not_from i) l0) ∧
      (Forall (not_from j) l1 → record d = b).
Proof.
  intros Hij Ha Hb Hts. split; [|split].
  - destruct (process_record_outcome (_thread_context_collection w))
      as [_ ->|j0 c0 r0 Hfm ->]; [done|]. simpl.
    destruct (decide (j0 = j)) as [->|Hne]; [|by rewrite list_lookup_alter_ne].
    exfalso. destruct Hb as (cb & Hcb & Hhb).
    pose proof Hfm as (_ & Hc0 & Hr0 & _).
    assert (r0 = b) as -> by congruence.
    by eapply (first_minimum_not_after _ _ i j c0 a b).
  - intros Hmax Hleast. destruct Ha as (ci & Hci & Hhi).
    destruct (process_record_outcome (_thread_context_collection w))
      as [Hall _|j' c r Hfm E].
    + specialize (Hall i ci a (lookup_lt_Some _ _ _ Hci) Hci Hhi). lia.
    + destruct Hfm as (_ & Hc & Hr & _ & Hle & Hlt).
      pose proof (Hle i ci a (lookup_lt_Some _ _ _ Hci) Hci Hhi) as Hra.
      pose proof (Hleast j' c r Hc Hr) as Har.
      assert (j' ≤ i) as Hji.
      { destruct (decide (j' ≤ i)) as [|Hgt]; [done|].
        specialize (Hlt i ci a ltac:(lia) Hci Hhi). lia. }
      exists j', c, r. repeat split; try done; try lia.
      * destruct (decide (j' = i)) as [|Hne]; [done|].
        specialize (H j' c r ltac:(lia) Hc Hr). lia.
      * destruct (decide (j' = i)) as [->|Hne]; [congruence|].
        specialize (H j' c r ltac:(lia) Hc Hr). lia.
  - intros evs. pose proof (exec_effects evs w) as Hrtc.
    destruct (effects_tie _ _ i j a b Hrtc Hij Hts Ha Hb) as (new & E & Htie).
    destruct (effects_first_from _ _ j b Hrtc Hb) as (new' & E' & Hfirst).
    assert (new' = new) as ->.
    { rewrite E in E'. by apply app_inv_head in E'. }
    exists new. split; [done|]. intros l1 d l2 Hsplit Hd.
    split; [|by apply (Hfirst l1 d l2)].
    destruct Htie as [[_ Hj]|(l0 & tid & l0' & Hnew & Hi0 & Hj0)].
    + exfalso. rewrite Hsplit in Hj. apply Forall_app in Hj as [_ Hj].
      apply Forall_cons in Hj as [Hj _]. by apply Hj.
    + rewrite Hnew in Hsplit.
      destruct (split_after_first _ _ _ _ _ _ (not_from j) Hsplit Hj0)
        as [m ->].
      * intros Hn. by apply Hn.
      * intros <-. simpl in Hd. lia.
      * by exists l0, (mkDispatched i tid a), m.
Qed.

Lemma equal_timestamps_earlier_lane_first_witness :
  0 < 1 ∧
  lane_head tie_worker 0 (mkRecord 5 0) ∧
  lane_head tie_worker 1 (mkRecord 5 1) ∧
  timestamp (mkRecord 5 0) = timestamp (mkRecord 5 1) ∧
  ∃ j' c r,
    j' ≤ 0 ∧ timestamp r = timestamp (mkRecord 5 0) ∧
    _thread_context_collection tie_worker !! j' = Some c ∧
    head_of c = Some r ∧
    _process_record (_thread_context_collection tie_worker) =
      (true, alter pop_front j' (_thread_context_collection tie_worker),
       [mkDispatched j' (Some (thread_id c)) r]) ∧
    ((∀ k c' r', k < 0 → _thread_context_collection tie_worker !! k = Some c' →
                 head_of c' = Some r' →
                 (timestamp (mkRecord 5 0) < timestamp r')%Z) →
     j' = 0 ∧ r = mkRecord 5 0).
Proof.
  assert (lane_head tie_worker 0 (mkRecord 5 0)) as Ha.
  { exists (mkContext "A" [mkRecord 5 0]). split; reflexivity. }
  assert (lane_head tie_worker 1 (mkRecord 5 1)) as Hb.
  { exists (mkContext "B" [mkRecord 5 1]). split; reflexivity. }
  assert (∀ k c r, _thread_context_collection tie_worker !! k = Some c →
                   head_of c = Some r →
                   (timestamp (mkRecord 5 0) <= timestamp r)%Z) as Hleast.
  { intros [|[|k]] c r Hc Hr; simpl in Hc; [| |discriminate Hc];
      injection Hc as <-; injection Hr as <-; simpl; lia. }
  split; [lia|]. split; [exact Ha|]. split; [exact Hb|].
  split; [reflexivity|].
  refine (proj1 (proj2 (equal_timestamps_earlier_lane_first tie_worker 0 1
            (mkRecord 5 0) (mkRecord 5 1) _ Ha Hb eq_refl)) _ Hleast);
    [lia|reflexivity].
Defined.

(** C1 fails as stated: both producers push strictly increasing
    timestamps, yet the record stamped 5 is pushed after the record stamped
    10 was dispatched, and is dispatched after it. *)
Lemma late_push_dispatched_out_of_order :
  producer_order late_trace ∧
  dispatched_timestamps (exec late_worker late_trace) = [10; 5]%Z ∧
  ¬ StronglySorted Z.le (dispatched_timestamps (exec late_worker late_trace)).
Proof.
  split; [|split].
  - intros [|[|i]]; simpl; repeat constructor.
  - reflexivity.
  - intros H. replace (dispatched_timestamps (exec late_worker late_trace))
      with [10; 5]%Z in H by reflexivity.
    apply StronglySorted_cons in H as [H _].
    apply Forall_cons in H as [H _]. lia.
Qed.

(** A record that lands while the merge step is between two lanes is
    overtaken although nothing had been dispatched when it landed: both
    producers push strictly increasing timestamps, the record stamped 5
    lands on the first lane after that lane was examined, and the step
    dispatches the record stamped 10 that it finds in the second lane. *)
Example push_during_scan_dispatched_out_of_order :
  producer_order_racing racing_trace ∧
  dispatched_timestamps (exec_racing late_worker (take 2 racing_trace)) = [] ∧
  dispatched_timestamps (exec_racing late_worker (take 3 racing_trace))
    = [10]%Z ∧
  dispatched_timestamps (exec_racing late_worker racing_trace) = [10; 5]%Z.
Proof.
  split; [|by vm_compute].
  intros [|[|i]]; simpl; repeat constructor.
Qed.

(** C1, amended: starting from empty lanes and with nothing dispatched
    yet, whether pushes land between the steps of the worker thread or
    while a merge step is examining the lanes, if every producer pushes
    strictly increasing timestamps and no record lands with a timestamp
    below that of a record dispatched before it lands or dispatched by the
    merge step during which it lands, then the dispatched timestamps are
    non-decreasing; and every merge step that processes a record commits
    the head of one lane, whose timestamp is the minimum over the heads
    that the loop found when it examined the lanes. *)
Theorem dispatch_order_when_never_overtaken w evs :
  (∀ c, c ∈ _thread_context_collection w → spsc_queue c = []) →
  _handler_collection w = [] →
  producer_order_racing evs →
  never_overtaken w evs →
  StronglySorted Z.le (dispatched_timestamps (exec_racing w evs)) ∧
  (∀ arrivals cs cs' out,
     _process_record_racing arrivals cs = (true, cs', out) →
     ∃ j c r,
       push_all (arrived arrivals (S (length cs))) cs !! j = Some c ∧
       head_of c = Some r ∧
       out = [mkDispatched j (Some (thread_id c)) r] ∧
       cs' = alter pop_front j (push_all (arrived arrivals (S (length cs))) cs) ∧
       (∃ c0, observed arrivals cs j = Some c0 ∧ head_of c0 = Some r) ∧
       ∀ k c' r', k < length cs → observed arrivals cs k = Some c' →
                  head_of c' = Some r' → (timestamp r <= timestamp r')%Z).
Proof.
  intros Hempty Hlog Hprod Htimely. split.
  - apply ordered_racing_exec; [done|]. by apply ordered_racing_fresh.
  - intros arrivals cs cs' out Hstep.
    destruct (process_record_racing_outcome arrivals cs)
      as [E|(j & c & r & Hc & Hr & Hobs & Hle & _ & E)];
      rewrite E in Hstep; [done|].
    injection Hstep as <- <-. by exists j, c, r.
Qed.

Lemma dispatch_order_when_never_overtaken_witness :
  (∀ c, c ∈ _thread_context_collection late_worker → spsc_queue c = []) ∧
  _handler_collection late_worker = [] ∧
  producer_order_racing racing_timely_trace ∧
  never_overtaken late_worker racing_timely_trace ∧
  StronglySorted Z.le
    (dispatched_timestamps (exec_racing late_worker racing_timely_trace)) ∧
  dispatched_timestamps (exec_racing late_worker racing_timely_trace)
    = [6; 7; 8; 9]%Z.
Proof.
  assert (∀ c, c ∈ _thread_context_collection late_worker → spsc_queue c = [])
    as Hempty.
  { intros c Hc. simpl in Hc.
    repeat (apply elem_of_cons in Hc as [->|Hc]; [reflexivity|]).
    by apply elem_of_nil in Hc. }
  assert (producer_order_racing racing_timely_trace) as Hprod.
  { intros [|[|i]]; simpl; repeat constructor; lia. }
  assert (never_overtaken late_worker racing_timely_trace) as Htimely.
  { vm_compute. repeat split; repeat (constructor; [discriminate|]);
      repeat constructor; discriminate. }
  split; [exact Hempty|]. split; [reflexivity|]. split; [exact Hprod|].
  split; [exact Htimely|]. split; [|reflexivity].
  apply (dispatch_order_when_never_overtaken late_worker racing_timely_trace);
    [exact Hempty|reflexivity|exact Hprod|exact Htimely].
Defined.

(** C5 fails as stated: on a host where naming the thread fails, [run]
    returns normally to its caller and [is_running] is already true. *)
Lemma startup_failure_not_surfaced :
  on_start (host failing_worker) (_config failing_worker)
    = inl (system_error 1) ∧
  (run failing_worker).1 = inr tt ∧
  is_running (run failing_worker).2 = true.
Proof. by vm_compute. Qed.

Lemma start_exception_ends_worker_thread w e :
  _start_init_once_flag w = false →
  on_start (host w) (_config w) = inl e →
  (run w).1 = inr tt ∧
  is_running (run w).2 = true ∧
  _backend_worker_thread (run w).2 = Thread OnStart ∧
  _backend_worker_thread (worker_step (run w).2) = Thread (Threw e) ∧
  ∀ evs,
    (_backend_worker_thread (exec (run w).2 evs) = Thread OnStart ∨
     _backend_worker_thread (exec (run w).2 evs) = Thread (Threw e)) ∧
    _handler_collection (exec (run w).2 evs) = _handler_collection w ∧
    slept (exec (run w).2 evs) = slept w.
Proof.
  intros Hf Hs. unfold run, is_running. rewrite Hf. simpl.
  repeat split; try done.
  - unfold worker_step. simpl. by rewrite Hs.
  - destruct (exec_start_fails e evs
                (mkWorker (host w) (_config w) (_thread_context_collection w)
                   (_handler_collection w) true true
                   (backend_thread_sleep_duration (_config w))
                   (Thread OnStart) (slept w)))
      as ((_ & _ & Ht) & _); [|done].
    repeat split; simpl; auto.
  - by destruct (exec_start_fails e evs
                (mkWorker (host w) (_config w) (_thread_context_collection w)
                   (_handler_collection w) true true
                   (backend_thread_sleep_duration (_config w))
                   (Thread OnStart) (slept w)))
      as (_ & -> & _); [repeat split; simpl; auto|].
  - by destruct (exec_start_fails e evs
                (mkWorker (host w) (_config w) (_thread_context_collection w)
                   (_handler_collection w) true true
                   (backend_thread_sleep_duration (_config w))
                   (Thread OnStart) (slept w)))
      as (_ & _ & ->); [repeat split; simpl; auto|].
Qed.

Lemma startup_call_fails_throws h c :
  startup_call_fails h c → ∃ e, on_start h c = inl e.
Proof.
  unfold startup_call_fails, on_start, _set_cpu_affinity, _set_thread_name.
  destruct (platform h); [done| |].
  - intros Hname. exists (runtime_error (pthread_setname_np_result h)).
    destruct (negb _); by destruct (Z.eqb_spec (pthread_setname_np_result h) 0).
  - intros [[Haff Hsched]|Hprctl].
    + exists (system_error (errno h)).
      destruct (Z.eqb_spec (backend_thread_cpu_affinity c) UINT16_MAX); [done|].
      simpl. by rewrite Hsched.
    + exists (system_error (errno h)). rewrite Hprctl. simpl.
      destruct (negb _); [|done]. by destruct (_ =? _)%Z.
Qed.

(** The result of the macOS placement call is discarded: when
    [thread_policy_set] fails and naming the thread succeeds, the start-up
    block does not throw and the worker thread enters the running loop. *)
Example macos_placement_failure_is_discarded :
  thread_policy_set_result (host macos_worker) ≠ 0%Z ∧
  backend_thread_cpu_affinity (_config macos_worker) ≠ UINT16_MAX ∧
  on_start (host macos_worker) (_config macos_worker) = inr tt ∧
  _backend_worker_thread (worker_step (run macos_worker).2) = Thread Running.
Proof. by vm_compute. Qed.

(** C5, amended: if one of the start-up calls whose result the code
    checks fails ([sched_setaffinity] on Linux when an affinity is
    requested, [prctl] on Linux, [pthread_setname_np] on macOS) at the
    start-up of a worker that was not started before, the exception is
    raised on the worker thread before the running loop is entered: [run]
    has already set [is_running] and returns normally, the worker
    thread's first step ends it with the exception, and along every
    execution it never gets past start-up, nothing is dispatched and the
    thread never sleeps. *)
Theorem startup_failure_ends_worker_thread w :
  _start_init_once_flag w = false →
  startup_call_fails (host w) (_config w) →
  ∃ e,
    on_start (host w) (_config w) = inl e ∧
    (run w).1 = inr tt ∧
    is_running (run w).2 = true ∧
    _backend_worker_thread (run w).2 = Thread OnStart ∧
    _backend_worker_thread (worker_step (run w).2) = Thread (Threw e) ∧
    ∀ evs,
      (_backend_worker_thread (exec (run w).2 evs) = Thread OnStart ∨
       _backend_worker_thread (exec (run w).2 evs) = Thread (Threw e)) ∧
      _handler_collection (exec (run w).2 evs) = _handler_collection w ∧
      slept (exec (run w).2 evs) = slept w.
Proof.
  intros Hf Hfail. destruct (startup_call_fails_throws _ _ Hfail) as [e He].
  exists e. split; [done|]. by apply start_exception_ends_worker_thread.
Qed.

Lemma startup_failure_ends_worker_thread_witness :
  _start_init_once_flag failing_worker = false ∧
  startup_call_fails (host failing_worker) (_config failing_worker) ∧
  ∃ e,
    on_start (host failing_worker) (_config failing_worker) = inl e ∧
    (run failing_worker).1 = inr tt ∧
    is_running (run failing_worker).2 = true ∧
    _backend_worker_thread (run failing_worker).2 = Thread OnStart ∧
    _backend_worker_thread (worker_step (run failing_worker).2)
      = Thread (Threw e) ∧
    ∀ evs,
      (_backend_worker_thread (exec (run failing_worker).2 evs)
         = Thread OnStart ∨
       _backend_worker_thread (exec (run failing_worker).2 evs)
         = Thread (Threw e)) ∧
      _handler_collection (exec (run failing_worker).2 evs)
        = _handler_collection failing_worker ∧
      slept (exec (run failing_worker).2 evs) = slept failing_worker.
Proof.
  assert (startup_call_fails (host failing_worker) (_config failing_worker))
    as Hfail by (right; reflexivity).
  split; [reflexivity|]. split; [exact Hfail|].
  exact (startup_failure_ends_worker_thread failing_worker eq_refl Hfail).
Defined.

(** C8 fails as stated: two threads call [stop] on a running engine and
    both find the thread joinable; the worker thread drains and finishes,
    the first caller's [join] returns, and the second caller's [join] is
    then a call on a thread object that is not joinable: that caller
    never returns. *)
Lemma overlapping_stop_calls_do_not_both_return :
  let st := exec_calls ([AtStore; AtStore],
                        exec fresh_worker [CallRun; WorkerStep; WorkerStep])
              overlapping_stops in
  st.1 = [Returned; Terminated] ∧
  _backend_worker_thread st.2 = NotAThread ∧
  ∀ evs, (exec_calls st evs).1 !! 1 = Some Terminated.
Proof.
  cbv zeta. split; [by vm_compute|]. split; [by vm_compute|].
  intros evs. apply terminated_for_good. by vm_compute.
Qed.

(** C8, amended: a call of [stop] that no other call of [stop] overlaps
    can be made in every state of a worker whose thread is able to finish,
    any number of times.  It clears the flag that the loop reads and, when
    there is a thread to join, returns only once the worker thread has
    finished, leaving no thread behind; its result does not depend on the
    fuel; a second [stop] changes nothing; on a worker that is not running
    (never started, or already stopped) it changes nothing; and it is what
    a single caller does, action by action, while the worker thread takes
    its steps. *)
Theorem stop_joins_and_is_idempotent w :
  can_finish w →
  ∃ fuel w',
    stop fuel w = Some w' ∧
    is_running w' = false ∧
    _backend_worker_thread w' = NotAThread ∧
    (joinable (_backend_worker_thread w) = true →
     ∃ k, _backend_worker_thread
            (exec (set_running false w) (replicate k WorkerStep))
            = Thread Finished ∧
          w' = set_thread NotAThread
                 (exec (set_running false w) (replicate k WorkerStep))) ∧
    (joinable (_backend_worker_thread w) = false →
     is_running w = false → w' = w) ∧
    (∀ fuel', stop fuel' w' = Some w') ∧
    (∀ fuel2 w2, stop fuel2 w = Some w2 → w2 = w') ∧
    (∃ k, exec_calls ([AtStore], w) (one_stop k) = ([Returned], w')).
Proof.
  intros Hcan. destruct (stop_terminates w Hcan) as (fuel & w' & Hstop).
  destruct (stop_result _ _ _ Hstop) as (Hr & Ht & _).
  exists fuel, w'. repeat split; try done.
  - intros Hj. by apply (stop_joinable fuel).
  - intros Hj Hrun. destruct (_backend_worker_thread w) eqn:Htw; [|done].
    pose proof (stop_not_running fuel w Htw Hrun). congruence.
  - intros fuel'. by apply stop_not_running.
  - intros fuel2 w2 H2. by eapply stop_deterministic.
  - by apply (stop_as_one_caller fuel).
Qed.

Lemma stop_joins_and_is_idempotent_witness :
  can_finish (exec fresh_worker [CallRun; WorkerStep; WorkerStep]) ∧
  ∃ fuel w',
    stop fuel (exec fresh_worker [CallRun; WorkerStep; WorkerStep]) = Some w' ∧
    is_running w' = false ∧
    _backend_worker_thread w' = NotAThread ∧
    (∀ fuel', stop fuel' w' = Some w') ∧
    ∃ k, exec_calls
           ([AtStore], exec fresh_worker [CallRun; WorkerStep; WorkerStep])
           (one_stop k)
         = ([Returned], w').
Proof.
  assert (can_finish (exec fresh_worker [CallRun; WorkerStep; WorkerStep]))
    as Hcan by exact I.
  split; [exact Hcan|].
  destruct (stop_joins_and_is_idempotent _ Hcan)
    as (fuel & w' & Hstop & Hr & Ht & _ & _ & Hagain & _ & Hone).
  exists fuel, w'. split; [exact Hstop|]. split; [exact Hr|].
  split; [exact Ht|]. split; [exact Hagain|exact Hone].
Defined.

(** Only [run] consumes the once-flag: a [stop] on a worker that was
    never started returns at once, and the [run] that follows starts the
    engine for the first time. *)
Example run_after_stop_without_start :
  stop 0 fresh_worker = Some fresh_worker ∧
  is_running (run fresh_worker).2 = true ∧
  _backend_worker_thread (run fresh_worker).2 = Thread OnStart ∧
  _handler_collection (exec fresh_worker [CallRun; WorkerStep; WorkerStep])
    = [mkDispatched 0 (Some "A") (mkRecord 5 0)].
Proof. by vm_compute. Qed.

(** C10: the engine cannot be restarted.  Once [run] has been called, so
    that the once-flag is consumed, and a later [stop] has returned, every
    further [run] changes nothing, and along every further execution
    [is_running] stays false, there is no worker thread and nothing more
    is dispatched. *)
Theorem no_restart_after_stop w0 evs0 fuel w1 :
  stop fuel (exec w0 (CallRun :: evs0)) = Some w1 →
  run w1 = (inr tt, w1) ∧
  ∀ evs,
    is_running (exec w1 evs) = false ∧
    _backend_worker_thread (exec w1 evs) = NotAThread ∧
    _handler_collection (exec w1 evs) = _handler_collection w1.
Proof.
  intros Hstop. destruct (stop_result _ _ _ Hstop) as (Hr & Ht & Hf).
  assert (_start_init_once_flag w1 = true) as Hflag.
  { rewrite Hf. simpl. apply exec_once_flag.
    unfold run. by destruct (_start_init_once_flag w0) eqn:E. }
  split; [unfold run; by rewrite Hflag|].
  intros evs. destruct (exec_stopped evs w1) as ((_ & Ht' & Hr') & Hlog); done.
Qed.

Lemma no_restart_after_stop_witness :
  (∃ w1, stop 4 (exec fresh_worker [CallRun; WorkerStep; WorkerStep]) = Some w1 ∧
         run w1 = (inr tt, w1)).
Proof.
  eexists. split; [vm_compute; reflexivity|].
  apply (no_restart_after_stop fresh_worker [WorkerStep; WorkerStep] 4).
  vm_compute. reflexivity.
Defined.


(** * Further properties of the code *)

(** ** The merge step *)

Lemma thread_ids_pop j (cs : list ThreadContext) :
  thread_id <$> alter pop_front j cs = thread_id <$> cs.
Proof.
  apply list_eq. intros k. rewrite !list_lookup_fmap.
  destruct (decide (j = k)) as [->|Hne].
  - rewrite list_lookup_alter_eq. by destruct (cs !! k).
  - by rewrite list_lookup_alter_ne.
Qed.

Lemma thread_ids_push r i (cs : list ThreadContext) :
  thread_id <$> alter (push_back r) i cs = thread_id <$> cs.
Proof.
  apply list_eq. intros k. rewrite !list_lookup_fmap.
  destruct (decide (i = k)) as [->|Hne].
  - rewrite list_lookup_alter_eq. by destruct (cs !! k).
  - by rewrite list_lookup_alter_ne.
Qed.

(** X1: the loop over the thread contexts only peeks.  It leaves every
    lane exactly as it found it, and it ends either holding no handle, with
    the running minimum still at its initial value and a null thread id,
    or holding the handle of one lane's head, with the running minimum
    equal to that record's timestamp and the thread id of that lane. *)
Theorem scan_only_peeks cs :
  (scan cs).1 = cs ∧
  match desired_record_handle (scan cs).2 with
  | Invalid =>
      min_rdtsc (scan cs).2 = UINT64_MAX ∧ desired_thread_id (scan cs).2 = None
  | Valid j r =>
      ∃ c, cs !! j = Some c ∧ head_of c = Some r ∧
           min_rdtsc (scan cs).2 = timestamp r ∧
           desired_thread_id (scan cs).2 = Some (thread_id c)
  end.
Proof.
  split; [apply scan_contexts|].
  pose proof (scan_inv_all cs) as Hinv. unfold scan_inv in Hinv.
  destruct (desired_record_handle (scan cs).2) as [|j r].
  - by destruct Hinv as (? & ? & _).
  - destruct Hinv as (c & (_ & Hc & Hr & _) & Hmin & Htid). by exists c.
Qed.

(** X2: a merge step reports that it processed nothing exactly when no
    lane has a head stamped below [2^64 - 1] (in particular when there is
    no lane, or when every lane is empty); it then leaves the lanes as they
    were and hands nothing to the handlers. *)
Theorem process_record_idle_iff cs :
  ((_process_record cs).1.1 = false ↔
   ∀ k c r, cs !! k = Some c → head_of c = Some r →
            (UINT64_MAX <= timestamp r)%Z) ∧
  ((_process_record cs).1.1 = false → _process_record cs = (false, cs, [])).
Proof.
  destruct (process_record_outcome cs) as [Hall E|j c r Hfm E]; rewrite E; simpl.
  - split; [|done]. split; [|done]. intros _ k c r Hc Hr.
    apply (Hall k c r); [by eapply lookup_lt_Some|done..].
  - split; [|done]. split; [done|]. intros Hall.
    destruct Hfm as (_ & Hc & Hr & Hlt & _).
    specialize (Hall j c r Hc Hr). lia.
Qed.

(** X3: when some lane has a head stamped below [2^64 - 1], a merge step
    processes exactly one record: the head of the first lane, in scan
    order, among those whose head has the smallest timestamp.  That head
    is removed, handed to the handlers with the thread id of its lane, and
    every other lane is left as it was. *)
Theorem process_record_commits_first_minimum cs k0 c0 r0 :
  cs !! k0 = Some c0 →
  head_of c0 = Some r0 →
  (timestamp r0 < UINT64_MAX)%Z →
  ∃ j c r,
    _process_record cs =
      (true, alter pop_front j cs, [mkDispatched j (Some (thread_id c)) r]) ∧
    cs !! j = Some c ∧ head_of c = Some r ∧
    (∀ k c' r', cs !! k = Some c' → head_of c' = Some r' →
                (timestamp r <= timestamp r')%Z) ∧
    (∀ k c' r', k < j → cs !! k = Some c' → head_of c' = Some r' →
                (timestamp r < timestamp r')%Z).
Proof.
  intros Hc0 Hr0 Hlt0.
  destruct (process_record_outcome cs) as [Hall _|j c r Hfm E].
  - specialize (Hall k0 c0 r0 (lookup_lt_Some _ _ _ Hc0) Hc0 Hr0). lia.
  - destruct Hfm as (_ & Hc & Hr & _ & Hle & Hlt).
    exists j, c, r. repeat split; try done.
    intros k c' r' Hc' Hr'. apply (Hle k c' r'); [|done..].
    by eapply lookup_lt_Some.
Qed.

Lemma process_record_commits_first_minimum_witness :
  ex_lanes !! 1 = Some (mkContext "B" [mkRecord 6 2]) ∧
  head_of (mkContext "B" [mkRecord 6 2]) = Some (mkRecord 6 2) ∧
  (timestamp (mkRecord 6 2) < UINT64_MAX)%Z ∧
  ∃ j c r,
    _process_record ex_lanes =
      (true, alter pop_front j ex_lanes,
       [mkDispatched j (Some (thread_id c)) r]) ∧
    ex_lanes !! j = Some c ∧ head_of c = Some r ∧
    (∀ k c' r', ex_lanes !! k = Some c' → head_of c' = Some r' →
                (timestamp r <= timestamp r')%Z) ∧
    (∀ k c' r', k < j → ex_lanes !! k = Some c' → head_of c' = Some r' →
                (timestamp r < timestamp r')%Z).
Proof.
  split; [reflexivity|]. split; [reflexivity|]. split; [reflexivity|].
  apply (process_record_commits_first_minimum ex_lanes 1
           (mkContext "B" [mkRecord 6 2]) (mkRecord 6 2));
    reflexivity.
Defined.

(** X4: a merge step never adds or removes a lane and never changes a
    thread id; it removes from the lanes exactly as many records as it
    hands to the handlers, which is one when it reports true and none when
    it reports false. *)
Theorem process_record_frame cs :
  length (_process_record cs).1.2 = length cs ∧
  thread_id <$> (_process_record cs).1.2 = thread_id <$> cs ∧
  pending cs = pending (_process_record cs).1.2 + length (_process_record cs).2 ∧
  length (_process_record cs).2 = (if (_process_record cs).1.1 then 1 else 0).
Proof.
  destruct (process_record_outcome cs) as [_ E|j c r Hfm E]; rewrite E; simpl.
  - repeat split; lia.
  - destruct Hfm as (_ & Hc & Hr & _).
    rewrite length_alter, thread_ids_pop, (pending_pop cs j c r Hc Hr).
    repeat split; lia.
Qed.

(** ** Records along an execution *)

Lemma effect_thread_ids w w' k c :
  effect w w' → _thread_context_collection w !! k = Some c →
  ∃ c', _thread_context_collection w' !! k = Some c' ∧
        thread_id c' = thread_id c.
Proof.
  intros [Hcs _|i r Hcs _|tid Hcs _|j c0 r0 _ Hcs _] Hc; rewrite Hcs.
  - by exists c.
  - destruct (decide (i = k)) as [->|Hne].
    + exists (push_back r c). by rewrite list_lookup_alter_eq, Hc.
    + exists c. by rewrite list_lookup_alter_ne.
  - exists c. split; [|done]. by apply lookup_app_l_Some.
  - destruct (decide (j = k)) as [->|Hne].
    + exists (pop_front c). by rewrite list_lookup_alter_eq, Hc.
    + exists c. by rewrite list_lookup_alter_ne.
Qed.

Lemma effects_thread_ids w w' k c :
  rtc effect w w' → _thread_context_collection w !! k = Some c →
  ∃ c', _thread_context_collection w' !! k = Some c' ∧
        thread_id c' = thread_id c.
Proof.
  intros Hrtc. revert c. induction Hrtc as [w|w w1 w' Hstep _ IH]; intros c Hc.
  - by exists c.
  - destruct (effect_thread_ids _ _ k c Hstep Hc) as (c1 & Hc1 & <-).
    by apply IH.
Qed.

Lemma effects_from_its_lane w w' :
  rtc effect w w' →
  ∃ new, _handler_collection w' = _handler_collection w ++ new ∧
         Forall (from_its_lane (_thread_context_collection w')) new.
Proof.
  induction 1 as [w|w w1 w' Hstep Hrest (new2 & E2 & IH)].
  - exists []. by rewrite app_nil_r.
  - destruct Hstep as [Hcs Hlog|i r Hcs Hlog|tid Hcs Hlog|j c r Hfm Hcs Hlog];
      try (exists new2; by rewrite E2, Hlog).
    exists (mkDispatched j (Some (thread_id c)) r :: new2).
    rewrite E2, Hlog, <- app_assoc. split; [done|].
    apply Forall_cons. split; [|done].
    destruct Hfm as (_ & Hc & _).
    assert (_thread_context_collection w1 !! j = Some (pop_front c)) as Hc1.
    { by rewrite Hcs, list_lookup_alter_eq, Hc. }
    destruct (effects_thread_ids _ _ j _ Hrest Hc1) as (c' & Hc' & Htid).
    exists c'. simpl. split; [done|]. by rewrite Htid.
Qed.

(** X5: along every execution, each record reaches the handlers together
    with the thread id that is stored in the lane it was taken from, never
    with a null thread id and never with the id of another lane. *)
Theorem dispatched_with_thread_id_of_its_lane w evs :
  ∃ new,
    _handler_collection (exec w evs) = _handler_collection w ++ new ∧
    Forall (from_its_lane (_thread_context_collection (exec w evs))) new.
Proof. apply effects_from_its_lane, exec_effects. Qed.

Lemma lane_queue_push_same (cs : list ThreadContext) i r :
  i < length cs →
  lane_queue (alter (push_back r) i cs) i = lane_queue cs i ++ [r].
Proof.
  intros Hi. rewrite lane_queue_alter. rewrite decide_True by done.
  unfold lane_queue. by destruct (lookup_lt_is_Some_2 cs i Hi) as [c ->].
Qed.

Lemma engine_effect_conserves w w' i :
  engine_effect w w' →
  length (_thread_context_collection w') = length (_thread_context_collection w) ∧
  ∃ new, _handler_collection w' = _handler_collection w ++ new ∧
    dispatched_from i new ++ lane_queue (_thread_context_collection w') i
      = lane_queue (_thread_context_collection w) i.
Proof.
  intros [Hcs Hlog|j c r Hfm Hcs Hlog]; rewrite Hcs.
  - split; [done|]. exists []. by rewrite app_nil_r.
  - rewrite length_alter. split; [done|]. eexists. split; [done|].
    unfold dispatched_from. rewrite lane_queue_pop.
    destruct (decide (j = i)) as [->|Hne].
    + rewrite filter_cons_True by done. simpl.
      destruct Hfm as (_ & Hc & Hr & _).
      by rewrite (lane_queue_head _ _ _ _ Hc Hr).
    + by rewrite filter_cons_False.
Qed.

Lemma apply_event_conserves w e i :
  i < length (_thread_context_collection w) →
  i < length (_thread_context_collection (apply_event w e)) ∧
  ∃ new, _handler_collection (apply_event w e) = _handler_collection w ++ new ∧
    dispatched_from i new
      ++ lane_queue (_thread_context_collection (apply_event w e)) i
      = lane_queue (_thread_context_collection w) i
          ++ records_pushed_to i [e].
Proof.
  intros Hi. pose proof (apply_event_engine_effect w e) as Heng.
  destruct e as [k r|tid| | | |];
    try (destruct (engine_effect_conserves _ _ i Heng) as (Hlen & new & E & Hq);
         split; [lia|]; exists new; simpl; by rewrite app_nil_r).
  - simpl. rewrite length_alter. split; [done|].
    exists []. rewrite app_nil_r. split; [done|]. simpl.
    destruct (decide (k = i)) as [->|Hne].
    + by apply lane_queue_push_same.
    + rewrite lane_queue_alter, decide_False by done. by rewrite app_nil_r.
  - simpl. rewrite length_app. split; [lia|].
    exists []. rewrite app_nil_r. split; [done|]. simpl.
    by rewrite lane_queue_register, app_nil_r.
Qed.

Lemma records_pushed_to_cons i e evs :
  records_pushed_to i (e :: evs)
    = records_pushed_to i [e] ++ records_pushed_to i evs.
Proof. destruct e; simpl; try done. by destruct (decide _). Qed.

Lemma exec_conserves evs :
  ∀ w i,
    i < length (_thread_context_collection w) →
    ∃ new,
      _handler_collection (exec w evs) = _handler_collection w ++ new ∧
      dispatched_from i new
        ++ lane_queue (_thread_context_collection (exec w evs)) i
        = lane_queue (_thread_context_collection w) i
            ++ records_pushed_to i evs.
Proof.
  induction evs as [|e evs IH]; intros w i Hi.
  - exists []. simpl. by rewrite !app_nil_r.
  - destruct (apply_event_conserves w e i Hi) as (Hi1 & new1 & E1 & Hq1).
    destruct (IH (apply_event w e) i Hi1) as (new2 & E2 & Hq2).
    exists (new1 ++ new2).
    change (exec w (e :: evs)) with (exec (apply_event w e) evs).
    rewrite E2, E1, app_assoc. split; [done|].
    rewrite records_pushed_to_cons, app_assoc, <- Hq1.
    unfold dispatched_from in *. rewrite filter_app, fmap_app.
    rewrite <- !app_assoc. f_equal. exact Hq2.
Qed.

(** X6: no record is lost, duplicated or reordered within its lane.  For
    a lane that exists at the start of an execution, the records that the
    handlers received from it, followed by the records still queued in it,
    are the records that were queued in it at the start followed by the
    records pushed onto it, in that order. *)
Theorem lane_records_conserved w evs i :
  i < length (_thread_context_collection w) →
  ∃ new,
    _handler_collection (exec w evs) = _handler_collection w ++ new ∧
    dispatched_from i new
      ++ lane_queue (_thread_context_collection (exec w evs)) i
      = lane_queue (_thread_context_collection w) i
          ++ records_pushed_to i evs.
Proof. apply exec_conserves. Qed.

Lemma lane_records_conserved_witness :
  1 < length (_thread_context_collection late_worker) ∧
  ∃ new,
    _handler_collection (exec late_worker timely_trace)
      = _handler_collection late_worker ++ new ∧
    dispatched_from 1 new
      ++ lane_queue (_thread_context_collection (exec late_worker timely_trace)) 1
      = lane_queue (_thread_context_collection late_worker) 1
          ++ records_pushed_to 1 timely_trace.
Proof.
  assert (1 < length (_thread_context_collection late_worker)) as Hi.
  { simpl. lia. }
  split; [exact Hi|].
  apply (lane_records_conserved late_worker timely_trace 1 Hi).
Defined.

(** ** The running loop *)

(** X7: one iteration of the running loop does exactly one of two things:
    it hands one record to the handlers, removing one record from the
    lanes, and does not sleep; or it hands over nothing, leaves the lanes
    as they are and sleeps once, for the duration stored by [run]. *)
Theorem main_loop_dispatches_or_sleeps w :
  (∃ d, _handler_collection (_main_loop w) = _handler_collection w ++ [d] ∧
        pending (_thread_context_collection w)
          = S (pending (_thread_context_collection (_main_loop w))) ∧
        slept (_main_loop w) = slept w) ∨
  (_handler_collection (_main_loop w) = _handler_collection w ∧
   _thread_context_collection (_main_loop w) = _thread_context_collection w ∧
   slept (_main_loop w) = slept w ++ [_backend_thread_sleep_duration w]).
Proof.
  unfold _main_loop.
  destruct (process_spec w) as [_|j c r (_ & Hc & Hr & _)]; simpl.
  - by right.
  - left. eexists. split; [done|]. split; [|done]. by eapply pending_pop.
Qed.

Lemma worker_step_duration w :
  _backend_thread_sleep_duration (worker_step w)
    = _backend_thread_sleep_duration w.
Proof.
  unfold worker_step, _main_loop.
  pose proof (process_fields w) as (_ & _ & _ & _ & Hd & _).
  destruct (_backend_worker_thread w) as [|[]]; try done.
  - by destruct (on_start _ _).
  - destruct (is_running w); [|done]. by destruct (process w) as [[] w1].
  - by destruct (process w) as [[] w1].
Qed.

Lemma worker_step_slept w :
  ∃ naps, slept (worker_step w) = slept w ++ naps ∧
          (naps = [] ∨
           (naps = [_backend_thread_sleep_duration w] ∧
            _backend_worker_thread w = Thread Running ∧
            _is_running w = true)).
Proof.
  unfold worker_step.
  pose proof (process_fields w) as (_ & _ & _ & _ & _ & _ & Hs).
  destruct (_backend_worker_thread w) as [|[]] eqn:Ht;
    try (exists []; rewrite app_nil_r; by auto).
  - exists []. rewrite app_nil_r. destruct (on_start _ _); by auto.
  - unfold is_running. destruct (_is_running w) eqn:Hr.
    + rewrite main_loop_sleep. eexists. split; [done|].
      destruct (process w).1; auto.
    + exists []. rewrite app_nil_r. by auto.
  - exists []. rewrite app_nil_r.
    destruct (process w) as [[] w1]; simpl in *; by auto.
Qed.

Lemma worker_step_thread_started w :
  _backend_worker_thread w = NotAThread →
  _backend_worker_thread (worker_step w) = NotAThread.
Proof. intros Ht. unfold worker_step. by rewrite Ht. Qed.

Lemma apply_event_duration_configured w e :
  duration_configured w →
  duration_configured (apply_event w e) ∧
  _config (apply_event w e) = _config w ∧
  ∃ naps, slept (apply_event w e) = slept w ++ naps ∧
          Forall (λ d, d = backend_thread_sleep_duration (_config w)) naps.
Proof.
  intros Hinv. pose proof (apply_event_fields w e) as [_ Hcfg].
  split; [|split; [done|]].
  - unfold duration_configured. rewrite Hcfg.
    destruct e as [i r|tid| | | |]; simpl; try done.
    + unfold run. destruct (_start_init_once_flag w) eqn:Hf; [done|].
      right. by simpl.
    + destruct Hinv as [[Hf Ht]|[Hf Hd]]; [left|right].
      * by rewrite Ht.
      * by destruct (_backend_worker_thread w) as [|[]].
    + pose proof (worker_step_fields w) as (_ & _ & _ & Hf').
      rewrite Hf', worker_step_duration.
      destruct Hinv as [[Hf Ht]|[Hf Hd]]; [left|right]; [|done].
      split; [done|]. by apply worker_step_thread_started.
  - destruct e as [i r|tid| | | |]; simpl;
      try (exists []; rewrite app_nil_r; by split).
    + exists []. rewrite app_nil_r. split; [|done].
      unfold run. by destruct (_start_init_once_flag w).
    + exists []. rewrite app_nil_r. split; [|done].
      by destruct (_backend_worker_thread w) as [|[]].
    + destruct (worker_step_slept w) as (naps & E & [->|(-> & Ht & _)]).
      * by exists [].
      * eexists. split; [done|]. apply Forall_singleton.
        destruct Hinv as [[_ Ht']|[_ Hd]]; [congruence|done].
Qed.

Lemma exec_duration_configured evs :
  ∀ w, duration_configured w →
    ∃ naps, slept (exec w evs) = slept w ++ naps ∧
            Forall (λ d, d = backend_thread_sleep_duration (_config w)) naps.
Proof.
  induction evs as [|e evs IH]; intros w Hinv.
  - exists []. by rewrite app_nil_r.
  - destruct (apply_event_duration_configured w e Hinv)
      as (Hinv1 & Hcfg & naps1 & E1 & H1).
    destruct (IH _ Hinv1) as (naps2 & E2 & H2). rewrite Hcfg in H2.
    exists (naps1 ++ naps2). simpl. rewrite E2, E1, app_assoc.
    split; [done|]. by apply Forall_app.
Qed.

(** X8: the worker thread never sleeps for anything but the configured
    duration, which [run] reads once.  Along every execution of a worker
    that was not started before, each sleep of the worker thread lasts
    the configured sleep duration. *)
Theorem sleeps_for_configured_duration w evs :
  _start_init_once_flag w = false →
  _backend_worker_thread w = NotAThread →
  ∃ naps,
    slept (exec w evs) = slept w ++ naps ∧
    Forall (λ d, d = backend_thread_sleep_duration (_config w)) naps.
Proof. intros Hf Ht. apply exec_duration_configured. by left. Qed.

Lemma sleeps_for_configured_duration_witness :
  _start_init_once_flag fresh_worker = false ∧
  _backend_worker_thread fresh_worker = NotAThread ∧
  ∃ naps,
    slept (exec fresh_worker
             [CallRun; WorkerStep; WorkerStep; WorkerStep; WorkerStep;
              WorkerStep; WorkerStep])
      = slept fresh_worker ++ naps ∧
    Forall (λ d, d = backend_thread_sleep_duration (_config fresh_worker)) naps.
Proof.
  split; [reflexivity|]. split; [reflexivity|].
  apply (sleeps_for_configured_duration fresh_worker); reflexivity.
Defined.

(** ** Before and at [run] *)

Lemma apply_event_not_started w e :
  _backend_worker_thread w = NotAThread → is_call_run e = false →
  _backend_worker_thread (apply_event w e) = NotAThread ∧
  _handler_collection (apply_event w e) = _handler_collection w ∧
  slept (apply_event w e) = slept w.
Proof.
  intros Ht He. destruct e; simpl; try done.
  - by rewrite Ht.
  - unfold worker_step. by rewrite Ht.
Qed.

Lemma exec_not_started evs :
  ∀ w, _backend_worker_thread w = NotAThread →
       Forall (λ e, is_call_run e = false) evs →
       _backend_worker_thread (exec w evs) = NotAThread ∧
       _handler_collection (exec w evs) = _handler_collection w ∧
       slept (exec w evs) = slept w.
Proof.
  induction evs as [|e evs IH]; intros w Ht Hevs; [done|].
  apply Forall_cons in Hevs as [He Hevs]. simpl.
  destruct (apply_event_not_started w e Ht He) as (Ht1 & <- & <-).
  by apply IH.
Qed.

(** X9: nothing is processed before [run].  As long as [run] has not been
    called there is no worker thread, the handlers receive nothing and
    nobody sleeps; the records that are pushed pile up in their lanes, and
    destroying the worker at that point returns at once, still without
    handing anything to the handlers. *)
Theorem nothing_processed_before_run w evs :
  _backend_worker_thread w = NotAThread →
  Forall (λ e, is_call_run e = false) evs →
  _backend_worker_thread (exec w evs) = NotAThread ∧
  _handler_collection (exec w evs) = _handler_collection w ∧
  slept (exec w evs) = slept w ∧
  (∀ i, i < length (_thread_context_collection w) →
        lane_queue (_thread_context_collection (exec w evs)) i
          = lane_queue (_thread_context_collection w) i
              ++ records_pushed_to i evs) ∧
  (∀ fuel, ∃ w',
     BackendWorker_destructor fuel (exec w evs) = Some w' ∧
     _handler_collection w' = _handler_collection w ∧
     _thread_context_collection w'
       = _thread_context_collection (exec w evs)).
Proof.
  intros Ht Hevs. destruct (exec_not_started evs w Ht Hevs) as (Ht' & Hlog & Hs).
  repeat split; try done.
  - intros i Hi. destruct (exec_conserves evs w i Hi) as (new & E & Hq).
    rewrite Hlog in E. rewrite <- (app_nil_r (_handler_collection w)) in E at 1.
    apply app_inv_head in E as <-. exact Hq.
  - intros fuel. unfold BackendWorker_destructor, stop. simpl. rewrite Ht'.
    simpl. eexists. split; [done|]. by simpl.
Qed.

Lemma nothing_processed_before_run_witness :
  _backend_worker_thread fresh_worker = NotAThread ∧
  Forall (λ e, is_call_run e = false)
    [Push 2 (mkRecord 9 3); StopStore; WorkerStep; StopJoin] ∧
  _handler_collection
    (exec fresh_worker [Push 2 (mkRecord 9 3); StopStore; WorkerStep; StopJoin])
    = _handler_collection fresh_worker.
Proof.
  assert (Forall (λ e, is_call_run e = false)
            [Push 2 (mkRecord 9 3); StopStore; WorkerStep; StopJoin]) as Hevs.
  { repeat constructor. }
  split; [reflexivity|]. split; [exact Hevs|].
  apply (nothing_processed_before_run fresh_worker
           [Push 2 (mkRecord 9 3); StopStore; WorkerStep; StopJoin]);
    [reflexivity|exact Hevs].
Defined.

Lemma exec_without_further_runs evs :
  ∀ w, _start_init_once_flag w = true →
       exec w evs = exec w (filter (λ e, is_call_run e = false) evs).
Proof.
  induction evs as [|e evs IH]; intros w Hf; [done|].
  destruct (is_call_run e) eqn:He.
  - rewrite filter_cons_False by (rewrite He; done).
    destruct e; try done. simpl. unfold run. rewrite Hf. simpl. by apply IH.
  - rewrite filter_cons_True by done. simpl.
    apply IH. by apply apply_event_once_flag.
Qed.

(** X10: only the first [run] counts.  After a call of [run], every
    further call, wherever it falls in the execution, changes nothing: the
    execution ends in the same state as the one without those calls. *)
Theorem later_runs_are_ignored w evs :
  exec w (CallRun :: evs)
    = exec w (CallRun :: filter (λ e, is_call_run e = false) evs).
Proof.
  simpl. apply exec_without_further_runs.
  unfold run. by destruct (_start_init_once_flag w) eqn:Hf.
Qed.

(** X11: which start-ups fail, and how.  On Windows the start-up block
    cannot fail.  When no CPU affinity is requested (the configured value
    is the largest [uint16_t]) the affinity call is not made and only
    naming the thread can fail.  Otherwise the block throws exactly in
    these cases: on Linux a [system_error] carrying [errno] when
    [sched_setaffinity] (if an affinity is requested) or [prctl] returns
    -1; on macOS a [runtime_error] carrying the result of
    [pthread_setname_np] when that result is not zero. *)
Theorem on_start_failure_cases h c :
  (platform h = Win32 → on_start h c = inr tt) ∧
  (backend_thread_cpu_affinity c = UINT16_MAX →
   on_start h c = _set_thread_name h c) ∧
  (∀ e, on_start h c = inl e ↔
     (platform h = Posix ∧ e = system_error (errno h) ∧
      ((backend_thread_cpu_affinity c ≠ UINT16_MAX ∧
        sched_setaffinity_result h = (-1)%Z) ∨
       prctl_result h = (-1)%Z)) ∨
     (platform h = Apple ∧
      e = runtime_error (pthread_setname_np_result h) ∧
      pthread_setname_np_result h ≠ 0%Z)).
Proof.
  unfold on_start, _set_cpu_affinity, _set_thread_name.
  split; [intros ->; by destruct (negb _)|]. split.
  - intros ->. by rewrite Z.eqb_refl.
  - intros e. destruct (platform h) eqn:Hp.
    + split.
      * by destruct (negb _).
      * intros [(? & _)|(? & _)]; discriminate.
    + replace (if negb (backend_thread_cpu_affinity c =? UINT16_MAX)%Z
               then @inr Exception unit tt else inr tt) with (@inr Exception unit tt)
        by by destruct (negb _).
      destruct (Z.eqb_spec (pthread_setname_np_result h) 0) as [E|E]; simpl.
      * split; [done|]. intros [(? & _)|(_ & _ & ?)]; [discriminate|done].
      * split.
        -- intros [= <-]. right. done.
        -- intros [(? & _)|(_ & -> & _)]; [discriminate|done].
    + destruct (Z.eqb_spec (backend_thread_cpu_affinity c) UINT16_MAX) as [Ea|Ea];
        destruct (Z.eqb_spec (sched_setaffinity_result h) (-1)) as [Es|Es];
        destruct (Z.eqb_spec (prctl_result h) (-1)) as [Ep|Ep]; simpl;
        (split; [intros H; try discriminate H; injection H as <-; left; tauto
                |intros [(_ & He & Hc)|(? & _)]; [|discriminate];
                 try (by rewrite He); exfalso; tauto]).
Qed.

(** ** The running flag and the stages of the worker *)

Lemma apply_event_is_running_started w e :
  _start_init_once_flag w = true →
  _is_running (apply_event w e)
    = if is_stop_store e then false else _is_running w.
Proof.
  intros Hf. destruct e; simpl; try done.
  - unfold run. by rewrite Hf.
  - by destruct (_backend_worker_thread w) as [|[]].
  - by pose proof (worker_step_fields w) as (_ & _ & -> & _).
Qed.

Lemma exec_is_running_started evs :
  ∀ w, _start_init_once_flag w = true →
    (_is_running (exec w evs) = true ↔
     _is_running w = true ∧ Forall (λ e, is_stop_store e = false) evs).
Proof.
  induction evs as [|e evs IH]; intros w Hf; simpl.
  - split; [by intros ->|by intros [-> _]].
  - rewrite (IH _ (apply_event_once_flag w e Hf)).
    rewrite (apply_event_is_running_started w e Hf), Forall_cons.
    destruct (is_stop_store e).
    + split; [by intros [? _]|by intros (_ & ? & _)].
    + split; [by intros [? ?]|by intros (? & _ & ?)].
Qed.

Lemma apply_event_is_running_not_started w e :
  _start_init_once_flag w = false → _is_running w = false →
  is_call_run e = false →
  _start_init_once_flag (apply_event w e) = false ∧
  _is_running (apply_event w e) = false.
Proof.
  intros Hf Hr He. destruct e; simpl; try done.
  - by destruct (_backend_worker_thread w) as [|[]].
  - by pose proof (worker_step_fields w) as (_ & _ & -> & ->).
Qed.

(** X12: [is_running] answers true exactly from the first call of [run]
    until the next store of [stop].  For a worker that was not started, it
    is true at the end of an execution if and only if the execution
    contains a call of [run] such that no [stop] has stored its flag after
    the first such call. *)
Theorem is_running_from_first_run_to_stop evs :
  ∀ w,
    _start_init_once_flag w = false →
    _is_running w = false →
    (is_running (exec w evs) = true ↔
     ∃ l1 l2, evs = l1 ++ CallRun :: l2 ∧
              Forall (λ e, is_call_run e = false) l1 ∧
              Forall (λ e, is_stop_store e = false) l2).
Proof.
  unfold is_running.
  induction evs as [|e evs IH]; intros w Hf Hr; simpl.
  - rewrite Hr. split; [done|]. intros (l1 & l2 & E & _). by destruct l1.
  - destruct (is_call_run e) eqn:He.
    + destruct e; try done. simpl. unfold run. rewrite Hf. simpl.
      rewrite exec_is_running_started by done. simpl. split.
      * intros [_ Hl2]. by exists [], evs.
      * intros (l1 & l2 & E & Hl1 & Hl2). split; [done|].
        destruct l1 as [|e1 l1]; simpl in E.
        -- by injection E as ->.
        -- injection E as <- _. by apply Forall_cons in Hl1 as [? _].
    + destruct (apply_event_is_running_not_started w e Hf Hr He) as [Hf1 Hr1].
      rewrite (IH _ Hf1 Hr1). split.
      * intros (l1 & l2 & -> & Hl1 & Hl2). exists (e :: l1), l2.
        split; [done|]. split; [by apply Forall_cons|done].
      * intros (l1 & l2 & E & Hl1 & Hl2).
        destruct l1 as [|e1 l1]; simpl in E.
        -- injection E as -> _. done.
        -- injection E as <- ->. apply Forall_cons in Hl1 as [_ Hl1].
           by exists l1, l2.
Qed.

Lemma is_running_from_first_run_to_stop_witness :
  _start_init_once_flag fresh_worker = false ∧
  _is_running fresh_worker = false ∧
  (is_running (exec fresh_worker [StopStore; CallRun; WorkerStep]) = true ↔
   ∃ l1 l2, [StopStore; CallRun; WorkerStep] = l1 ++ CallRun :: l2 ∧
            Forall (λ e, is_call_run e = false) l1 ∧
            Forall (λ e, is_stop_store e = false) l2).
Proof.
  split; [reflexivity|]. split; [reflexivity|].
  apply (is_running_from_first_run_to_stop [StopStore; CallRun; WorkerStep]
           fresh_worker); reflexivity.
Defined.

Lemma apply_event_stop_requested w e :
  _start_init_once_flag w = true → _is_running w = false →
  _start_init_once_flag (apply_event w e) = true ∧
  _is_running (apply_event w e) = false ∧
  slept (apply_event w e) = slept w.
Proof.
  intros Hf Hr. split; [by apply apply_event_once_flag|].
  rewrite (apply_event_is_running_started w e Hf), Hr.
  split; [by destruct (is_stop_store e)|].
  destruct e; simpl; try done.
  - unfold run. by rewrite Hf.
  - by destruct (_backend_worker_thread w) as [|[]].
  - destruct (worker_step_slept w) as (naps & -> & [->|(_ & _ & Hr')]).
    + by rewrite app_nil_r.
    + congruence.
Qed.

(** X13: a stop request is final.  Once [run] was called and [stop] has
    stored its flag, [is_running] stays false along every execution,
    whatever is called afterwards. *)
Theorem stop_request_is_final w evs :
  _start_init_once_flag w = true →
  is_running (exec w (StopStore :: evs)) = false.
Proof.
  intros Hf. unfold is_running. simpl.
  assert (∀ evs w', _start_init_once_flag w' = true → _is_running w' = false →
            _is_running (exec w' evs) = false ∧ slept (exec w' evs) = slept w')
    as Hall.
  { clear. induction evs as [|e evs IH]; intros w' Hf Hr; [done|]. simpl.
    destruct (apply_event_stop_requested w' e Hf Hr) as (Hf1 & Hr1 & <-).
    by apply IH. }
  by destruct (Hall evs (set_running false w) Hf eq_refl).
Qed.

Lemma stop_request_is_final_witness :
  _start_init_once_flag max_running = true ∧
  is_running (exec max_running [StopStore; WorkerStep; CallRun; WorkerStep])
    = false.
Proof.
  split; [reflexivity|].
  apply (stop_request_is_final max_running [WorkerStep; CallRun; WorkerStep]).
  reflexivity.
Defined.

Lemma worker_step_stage w : stage w ≤ stage (worker_step w).
Proof.
  unfold worker_step, _main_loop.
  pose proof (process_fields w) as (_ & _ & _ & Hf & _ & Ht & _).
  destruct (_backend_worker_thread w) as [|[]] eqn:Htw; try done.
  - unfold stage. rewrite Htw. destruct (on_start _ _); simpl; lia.
  - unfold stage at 1. rewrite Htw.
    destruct (is_running w); [|unfold stage; simpl; lia].
    destruct (process w) as [[] w1]; unfold stage; simpl in *;
      rewrite Ht; lia.
  - unfold stage at 1. rewrite Htw.
    destruct (process w) as [[] w1]; unfold stage; simpl in *;
      [rewrite Ht; lia|lia].
Qed.

Lemma apply_event_stage w e :
  thread_needs_run w →
  thread_needs_run (apply_event w e) ∧ stage w ≤ stage (apply_event w e).
Proof.
  unfold thread_needs_run. intros Hinv.
  destruct e as [i r|tid| | | |]; simpl.
  - split; [exact Hinv|reflexivity].
  - split; [exact Hinv|reflexivity].
  - unfold run. destruct (_start_init_once_flag w) eqn:Hf.
    + split; [simpl; by rewrite Hf|reflexivity].
    + split; [simpl; intros H; discriminate H|].
      unfold stage. rewrite Hf, (Hinv eq_refl). simpl. lia.
  - split; [exact Hinv|reflexivity].
  - destruct (_backend_worker_thread w) as [|[]] eqn:Ht;
      try (split; [intros Hf0; specialize (Hinv Hf0); congruence
                  |reflexivity]).
    split; [simpl; intros _; reflexivity|]. unfold stage. rewrite Ht. simpl.
    destruct (_start_init_once_flag w) eqn:Hf; [lia|].
    specialize (Hinv eq_refl). congruence.
  - split; [|apply worker_step_stage].
    pose proof (worker_step_fields w) as (_ & _ & _ & ->).
    intros Hf. by apply worker_step_thread_started, Hinv.
Qed.

(** X14: the life of the worker goes one way.  Along every execution the
    worker only moves forward through the stages not started, starting,
    running, draining, ended, joined: it never runs the loop again after
    it has left it, and no second thread is started after a join. *)
Theorem stages_only_advance evs :
  ∀ w, thread_needs_run w → stage w ≤ stage (exec w evs).
Proof.
  induction evs as [|e evs IH]; intros w Hinv; [done|]. simpl.
  destruct (apply_event_stage w e Hinv) as [Hinv1 Hle].
  specialize (IH _ Hinv1). lia.
Qed.

Lemma stages_only_advance_witness :
  thread_needs_run max_on_exit ∧
  stage max_on_exit ≤ stage (exec max_on_exit [CallRun; WorkerStep; CallRun]).
Proof.
  assert (thread_needs_run max_on_exit) as Hinv by (intros H; discriminate H).
  split; [exact Hinv|].
  apply (stages_only_advance [CallRun; WorkerStep; CallRun] max_on_exit Hinv).
Defined.

(** ** Draining *)

Lemma exit_slept fuel :
  ∀ w w', _exit fuel w = Some w' → slept w' = slept w.
Proof.
  induction fuel as [|fuel IH]; intros w w'; [done|]. simpl.
  pose proof (process_fields w) as (_ & _ & _ & _ & _ & _ & Hs).
  destruct (process w) as [[] w1]; simpl in *.
  - intros Hx. rewrite (IH _ _ Hx). done.
  - by intros [= <-].
Qed.

(** X15: the drain loop ends after at most one merge step more than there
    are queued records, provided no producer pushes meanwhile, and it
    never sleeps.  From each lane it hands the handlers a prefix of the
    lane's queue, in order; what it leaves behind has no head stamped
    below [2^64 - 1]; so when every queued record is stamped below
    [2^64 - 1], it leaves every lane empty. *)
Theorem exit_drains_the_lanes w :
  ∃ w' new,
    _exit (S (pending (_thread_context_collection w))) w = Some w' ∧
    _handler_collection w' = _handler_collection w ++ new ∧
    slept w' = slept w ∧
    (∀ i, lane_queue (_thread_context_collection w) i
            = dispatched_from i new
                ++ lane_queue (_thread_context_collection w') i) ∧
    (∀ k c r, _thread_context_collection w' !! k = Some c →
              head_of c = Some r → (UINT64_MAX <= timestamp r)%Z) ∧
    ((∀ i r, r ∈ lane_queue (_thread_context_collection w) i →
             (timestamp r < UINT64_MAX)%Z) →
     ∀ i, lane_queue (_thread_context_collection w') i = []).
Proof.
  destruct (exit_total (pending (_thread_context_collection w)) w (le_n _))
    as [w' Hx].
  destruct (exit_engine _ _ _ Hx) as [Hrtc Hidle].
  destruct (engine_effects_lanes _ _ Hrtc) as (new & E & Hlanes).
  exists w', new. split; [done|]. split; [done|].
  split; [by eapply exit_slept|]. split; [done|]. split.
  - intros k c r Hc Hr. apply (Hidle k c r); [by eapply lookup_lt_Some|done..].
  - intros Hbelow. apply nothing_below_max_empty; [done|].
    intros i r Hr. apply (Hbelow i). rewrite Hlanes. apply elem_of_app. by right.
Qed.

Lemma join_never_on_threw fuel w e :
  _backend_worker_thread w = Thread (Threw e) → join fuel w = None.
Proof. intros Ht. destruct fuel; simpl; by rewrite Ht. Qed.

Lemma join_drains fuel :
  ∀ w w',
    in_body w → _is_running w = false → join fuel w = Some w' →
    rtc engine_effect w w' ∧
    nothing_below_max (_thread_context_collection w')
      (length (_thread_context_collection w')) ∧
    slept w' = slept w.
Proof.
  induction fuel as [|fuel IH]; intros w w' Hbody Hrun Hj.
  - unfold in_body in Hbody. simpl in Hj.
    by destruct (_backend_worker_thread w) as [|[]].
  - pose proof (join_unfold fuel w) as Hu. unfold in_body in Hbody.
    pose proof (worker_step_fields w) as (_ & _ & Hr1 & _).
    destruct (_backend_worker_thread w) as [|[]] eqn:Ht; try done;
      rewrite Hu in Hj; clear Hu.
    + (* start-up *)
      unfold worker_step in Hj, Hr1. rewrite Ht in Hj, Hr1.
      destruct (on_start (host w) (_config w)) as [e|[]].
      * by rewrite (join_never_on_threw fuel _ e) in Hj.
      * destruct (IH (set_thread (Thread Running) w) w' I Hrun Hj)
          as (Hrtc & Hidle & Hs).
        split; [|done]. eapply rtc_l; [|exact Hrtc]. by apply engine_none.
    + (* the loop condition is false *)
      unfold worker_step, is_running in Hj. rewrite Ht, Hrun in Hj.
      destruct (IH (set_thread (Thread OnExit) w) w' I Hrun Hj)
        as (Hrtc & Hidle & Hs).
      split; [|done]. eapply rtc_l; [|exact Hrtc]. by apply engine_none.
    + (* one drain step *)
      pose proof (worker_step_engine_effect w) as Heff.
      unfold worker_step in Hj, Heff, Hr1. rewrite Ht in Hj, Heff, Hr1.
      pose proof (process_fields w) as (_ & _ & _ & _ & _ & Ht1 & Hs1).
      revert Hj Heff Hr1 Ht1 Hs1.
      destruct (process_spec w) as [Hidle|j c r Hfm]; simpl;
        intros Hj Heff Hr1 Ht1 Hs1.
      * rewrite join_finished in Hj by done. injection Hj as <-.
        split; [apply rtc_once; by apply engine_none|]. by split.
      * destruct (IH (committed j c r w) w') as (Hrtc & Hidle' & Hs);
          [unfold in_body; simpl; by rewrite Ht|done..|].
        split; [by eapply rtc_l|]. split; [done|]. by rewrite Hs.
Qed.



(** ** Merging sorted lanes *)

Lemma first_minimum_least_sorted cs j c r k r' :
  first_minimum cs (length cs) j c r → lanes_sorted cs →
  r' ∈ lane_queue cs k → (timestamp r <= timestamp r')%Z.
Proof.
  intros (_ & _ & _ & _ & Hle & _) Hsorted Hin.
  specialize (Hsorted k). unfold lane_queue in Hin, Hsorted.
  destruct (cs !! k) as [c'|] eqn:Hc'; simpl in *; [|by apply elem_of_nil in Hin].
  destruct (spsc_queue c') as [|r0 q] eqn:Hq; [by apply elem_of_nil in Hin|].
  assert (timestamp r <= timestamp r0)%Z as H0.
  { apply (Hle k c' r0); [by eapply lookup_lt_Some|done|].
    unfold head_of. by rewrite Hq. }
  apply elem_of_cons in Hin as [->|Hin]; [done|].
  rewrite fmap_cons in Hsorted. apply StronglySorted_cons in Hsorted as [Hall _].
  rewrite Forall_forall in Hall.
  assert (timestamp r' ∈ timestamp <$> q) as Hin'.
  { apply list_elem_of_fmap. by exists r'. }
  specialize (Hall _ Hin'). lia.
Qed.

Lemma lanes_sorted_pop j cs : lanes_sorted cs → lanes_sorted (alter pop_front j cs).
Proof.
  intros Hs i. specialize (Hs i). rewrite lane_queue_pop.
  case_decide; [|done]. destruct (lane_queue cs i) as [|r q]; [done|].
  simpl. rewrite fmap_cons in Hs. by apply StronglySorted_cons in Hs as [_ ?].
Qed.

Lemma engine_effects_sorted w w' :
  rtc engine_effect w w' → lanes_sorted (_thread_context_collection w) →
  ∃ new, _handler_collection w' = _handler_collection w ++ new ∧
    StronglySorted Z.le ((λ d, timestamp (record d)) <$> new) ∧
    Forall (λ d, record d ∈ lane_queue (_thread_context_collection w)
                              (source_lane d)) new.
Proof.
  induction 1 as [w|w w1 w' Hstep _ IH]; intros Hsorted.
  - exists []. rewrite app_nil_r. by repeat constructor.
  - destruct Hstep as [Hcs Hlog|j c r Hfm Hcs Hlog].
    + rewrite Hcs in IH. destruct (IH Hsorted) as (new2 & E2 & Hs2 & Hin2).
      exists new2. by rewrite E2, Hlog.
    + rewrite Hcs in IH.
      destruct (IH (lanes_sorted_pop j _ Hsorted)) as (new2 & E2 & Hs2 & Hin2).
      assert (Forall (λ d, record d ∈ lane_queue (_thread_context_collection w)
                                         (source_lane d)) new2) as Hin.
      { eapply Forall_impl; [exact Hin2|]. intros d Hd. simpl in Hd.
        rewrite lane_queue_pop in Hd. case_decide; [|done].
        by apply elem_of_tail. }
      exists (mkDispatched j (Some (thread_id c)) r :: new2).
      rewrite E2, Hlog, <- app_assoc. split; [done|]. split.
      * rewrite fmap_cons. apply StronglySorted_cons. split; [|done].
        apply Forall_fmap. eapply Forall_impl; [exact Hin|].
        intros d Hd.
        exact (first_minimum_least_sorted _ j c r (source_lane d) (record d)
                 Hfm Hsorted Hd).
      * apply Forall_cons. split; [|done]. simpl.
        destruct Hfm as (_ & Hc & Hr & _).
        rewrite (lane_queue_head _ _ _ _ Hc Hr). left.
Qed.

(** X17: merging sorted lanes gives a sorted stream.  When every lane
    holds its records in non-decreasing order of timestamp and no producer
    pushes meanwhile, the records that the drain loop hands to the
    handlers, and likewise those that a [stop] of a worker thread in its
    body hands over, are in non-decreasing order of timestamp. *)
Theorem drain_dispatches_in_timestamp_order w :
  lanes_sorted (_thread_context_collection w) →
  (∀ fuel w', _exit fuel w = Some w' →
     ∃ new, _handler_collection w' = _handler_collection w ++ new ∧
            StronglySorted Z.le ((λ d, timestamp (record d)) <$> new)) ∧
  (∀ fuel w', in_body w → stop fuel w = Some w' →
     ∃ new, _handler_collection w' = _handler_collection w ++ new ∧
            StronglySorted Z.le ((λ d, timestamp (record d)) <$> new)).
Proof.
  intros Hsorted. split.
  - intros fuel w' Hx. destruct (exit_engine _ _ _ Hx) as [Hrtc _].
    destruct (engine_effects_sorted _ _ Hrtc Hsorted) as (new & E & Hs & _).
    by exists new.
  - intros fuel w' Hbody Hstop.
    assert (join fuel (set_running false w) = Some w') as Hj.
    { unfold stop in Hstop. unfold in_body in Hbody. simpl in Hstop.
      by destruct (_backend_worker_thread w) as [|[]]. }
    destruct (join_drains fuel (set_running false w) w' Hbody eq_refl Hj)
      as (Hrtc & _).
    destruct (engine_effects_sorted _ _ Hrtc Hsorted) as (new & E & Hs & _).
    by exists new.
Qed.

Lemma drain_dispatches_in_timestamp_order_witness :
  lanes_sorted (_thread_context_collection fresh_worker) ∧
  (∀ fuel w', _exit fuel fresh_worker = Some w' →
     ∃ new, _handler_collection w' = _handler_collection fresh_worker ++ new ∧
            StronglySorted Z.le ((λ d, timestamp (record d)) <$> new)).
Proof.
  assert (lanes_sorted (_thread_context_collection fresh_worker)) as Hs.
  { intros [|[|[|i]]]; vm_compute; repeat constructor; discriminate. }
  split; [exact Hs|].
  apply (drain_dispatches_in_timestamp_order fresh_worker Hs).
Defined.

(** ** The merge step while producers push *)

(** X18: producers that push while the loop runs cannot make the merge
    step remove a record that it does not process.  Whatever lands before
    each lane is examined and before the commit, the step removes nothing
    during the loop; when it reports true, the record it processes is, at
    the moment of the commit, still the head of its lane, is handed over
    with that lane's thread id, is stamped below [2^64 - 1] and is no
    younger than any head that was in the lanes when the step began, and
    it is the only record removed; when it reports false, nothing is
    removed and no head that was in the lanes when the step began is
    stamped below [2^64 - 1].  Without pushes, this is the merge step
    itself. *)
Theorem process_record_while_producers_push arrivals cs :
  let after := push_all (arrived arrivals (S (length cs))) cs in
  (scan_racing arrivals cs).1 = push_all (arrived arrivals (length cs)) cs ∧
  match _process_record_racing arrivals cs with
  | (true, cs', out) =>
      ∃ j c r,
        after !! j = Some c ∧ head_of c = Some r ∧
        cs' = alter pop_front j after ∧
        out = [mkDispatched j (Some (thread_id c)) r] ∧
        (timestamp r < UINT64_MAX)%Z ∧
        ∀ k c' r', cs !! k = Some c' → head_of c' = Some r' →
                   (timestamp r <= timestamp r')%Z
  | (false, cs', out) =>
      cs' = after ∧ out = [] ∧
      ∀ k c' r', cs !! k = Some c' → head_of c' = Some r' →
                 (UINT64_MAX <= timestamp r')%Z
  end ∧
  _process_record_racing (λ _, []) cs = _process_record cs.
Proof.
  intros after.
  destruct (scan_racing_prefix arrivals cs (length cs) (le_n _)) as [Hst Hinv].
  fold (scan_racing arrivals cs) in Hst, Hinv.
  split; [exact Hst|]. split.
  - unfold _process_record_racing.
    destruct (scan_racing arrivals cs) as [now s]. simpl in *.
    apply (racing_inv_pushes _ _ _ _ (arrivals (length cs))) in Hinv.
    assert (push_all (arrivals (length cs)) now = after) as Hafter.
    { unfold after. by rewrite arrived_S, push_all_app, Hst. }
    rewrite Hafter in *. unfold racing_inv in Hinv.
    destruct (desired_record_handle s) as [|j r].
    + destruct Hinv as (_ & _ & Hall). repeat split; try done.
      intros k c' r' Hc' Hr'.
      apply (Hall k c' r'); [by eapply lookup_lt_Some|done..].
    + destruct Hinv as (c & Hc & Hr & _ & Htid & Hmax & Hle).
      exists j, c, r. rewrite Htid. repeat split; try done.
      intros k c' r' Hc' Hr'.
      apply (Hle k c' r'); [by eapply lookup_lt_Some|done..].
  - unfold _process_record_racing, _process_record, scan_racing, scan.
    assert (∀ l st, foldl (λ st i, scan_lane (push_all [] st.1, st.2) i) st l
                    = foldl scan_lane st l) as Hsame.
    { induction l as [|i l IHl]; intros [now s]; [done|]. simpl. apply IHl. }
    rewrite Hsame. by destruct (foldl scan_lane _ _) as [now s].
Qed.
